(** * SVCS: [svcs/repository.py] and the commands of [svcs/__main__.py]

    A shallow embedding of the [Repository] class, its commit / branch /
    merge core first.  The three JSON stores
    under [.repo/] (staging table, branch table, commit files) are finite
    maps; every method is a computation in a small state-and-exception
    monad over the file system.  Python exceptions are values of [Error];
    a loop that has no bound in the source takes a fuel argument and
    yields [Diverge] when the fuel is used up. *)

From Stdlib Require Import Ascii String.
From stdpp Require Import gmap strings list fin_maps.

Set Default Proof Using "Type".

(** ** Data model *)

(** One record of [staging.json], and of a commit's ['changes']:
    [{'hash': ..., 'timestamp': ...}]. *)
Record Entry := mkEntry { hash : string; timestamp : string }.

#[global] Instance Entry_eq_dec : EqDecision Entry.
Proof. solve_decision. Defined.

(** A commit file [commits/<id>.json]. ['parent'] is JSON [null] or a
    string; the field ['timestamp'] is [created] here, the name being taken
    by [Entry]. *)
Record Commit := mkCommit {
  message : string;
  author : string;
  created : string;
  parent : option string;
  changes : gmap string Entry
}.

(** The contents of [.repo/].  A value of the branch table is JSON [null]
    ([None]) or a string: a commit id for a branch, a branch name for the
    reserved key ["current"]. *)
Record Repo := mkRepo {
  staging : gmap string Entry;
  branches : gmap string (option string);
  commits : gmap string Commit
}.

(** What the working tree holds at a relative path. *)
Inductive Node :=
| NFile (content : string)
| NDir.

(** The file system below [root_path]: the working tree, and [.repo/] when
    it exists. *)
Record World := mkWorld {
  tree : gmap string Node;
  repo : option Repo
}.

(** The exceptions the class raises, one constructor per [raise] site
    message, and the built-in [KeyError] of a dict subscript. *)
Inductive Error :=
| NotARepository                    (* "Not a repository" *)
| RepositoryExists                  (* "Repository already exists" *)
| FileNotFound (p : string)         (* "File not found: ..." *)
| NotAFile (p : string)             (* "Not a file: ..." *)
| FileIgnored (p : string)          (* "File is ignored: ..." *)
| NoChangesStaged                   (* "No changes staged for commit" *)
| CommitNotFound (h : string)       (* "Commit not found: ..." *)
| BranchExists (n : string)         (* "Branch already exists: ..." *)
| BranchNotFound (n : string)       (* "Branch not found: ..." *)
| MergeIntoItself                   (* "Cannot merge a branch into itself" *)
| UncommittedSwitch                 (* "Cannot switch branches with uncommitted changes" *)
| UncommittedMerge                  (* "Cannot merge with uncommitted changes" *)
| NoCommonAncestor                  (* "No common ancestor found" *)
| KeyError (k : option string)      (* dict subscript on a missing key *)
| OSError.                          (* open() on a file that is not there *)

Inductive outcome (A : Type) :=
| Ok (a : A)
| Raise (e : Error)
| Diverge.
Arguments Ok {A} a.
Arguments Raise {A} e.
Arguments Diverge {A}.

(** [get_status]'s result. *)
Record Status := mkStatus {
  staged : list string;
  modified : list string;
  untracked : list string
}.

(** [merge_branch]'s result. *)
Record MergeResult := mkMergeResult {
  conflicts : list string;
  merged : list string
}.

(** ** The monad *)

Definition M (A : Type) : Type := World → outcome A * World.

Definition ret {A} (a : A) : M A := λ w, (Ok a, w).
Definition raise {A} (e : Error) : M A := λ w, (Raise e, w).
Definition diverge {A} : M A := λ w, (Diverge, w).
Definition bind {A B} (m : M A) (k : A → M B) : M B :=
  λ w, match m w with
       | (Ok a, w') => k a w'
       | (Raise e, w') => (Raise e, w')
       | (Diverge, w') => (Diverge, w')
       end.

Notation "x <- c ;; k" := (bind c (λ x, k))
  (at level 100, c at next level, right associativity).
Notation "c ;;; k" := (bind c (λ _, k))
  (at level 100, right associativity).

(** [if cond: raise e] *)
Definition raise_if (cond : bool) (e : Error) : M unit :=
  if cond then raise e else ret tt.

(** ** Python values *)

(** [str(x)] / f-string formatting of a value that is [None] or a string. *)
Definition py_str (v : option string) : string :=
  match v with
  | Some s => s
  | None => "None"
  end.

(** Truth value of a value that is [None] or a string. *)
Definition truthy (v : option string) : bool :=
  match v with
  | Some s => bool_decide (s ≠ "")
  | None => false
  end.

(** Truth value of a list. *)
Definition nonempty {A} (l : list A) : bool :=
  match l with
  | [] => false
  | _ => true
  end.

(** [d[k]] on the branch table, where [k] may be [None]. *)
Definition getitem (d : gmap string (option string)) (k : option string)
  : M (string * option string) :=
  match k with
  | None => raise (KeyError None)
  | Some k' =>
      match d !! k' with
      | Some v => ret (k', v)
      | None => raise (KeyError k)
      end
  end.

(** ** File access *)

Definition is_initialized : M bool :=
  λ w, (Ok (bool_decide (is_Some (repo w))), w).

Definition read_repo {A} (f : Repo → A) : M A :=
  λ w, match repo w with
       | Some r => (Ok (f r), w)
       | None => (Raise OSError, w)
       end.

Definition write_repo (f : Repo → Repo) : M unit :=
  λ w, match repo w with
       | Some r => (Ok tt, mkWorld (tree w) (Some (f r)))
       | None => (Raise OSError, w)
       end.

Definition read_staging : M (gmap string Entry) := read_repo staging.
Definition read_branches : M (gmap string (option string)) := read_repo branches.

Definition write_staging (s : gmap string Entry) : M unit :=
  write_repo (λ r, mkRepo s (branches r) (commits r)).
Definition write_branches (b : gmap string (option string)) : M unit :=
  write_repo (λ r, mkRepo (staging r) b (commits r)).
Definition write_commit (h : string) (c : Commit) : M unit :=
  write_repo (λ r, mkRepo (staging r) (branches r) (<[h := c]> (commits r))).

Definition read_tree : M (gmap string Node) := λ w, (Ok (tree w), w).

(** [get_commit]: the file [commits/{commit_hash}.json], so [None] is
    looked up under its formatted name.  The commit files are the keys of
    the map: this is the lookup of the code for an id that is a file name
    ([file_name] below); an id with a path separator names a file that is
    not in [commits/], which the map does not hold. *)
Definition get_commit (commit_hash : option string) : M Commit :=
  λ w, match repo w ≫= λ r, commits r !! py_str commit_hash with
       | Some c => (Ok c, w)
       | None => (Raise (CommitNotFound (py_str commit_hash)), w)
       end.

(** ** Collaborators

    SHA-256 hex digest of a byte string, the JSON text of a commit record
    ([json.dumps(commit, sort_keys=True)]), and [_is_ignored] as a function
    of the working tree (which holds [.svcignore]) and a relative path:
    the core only calls the three.  [is_ignored] is the answer of
    [_is_ignored] where it gives one, that is where [.svcignore] is absent
    or can be read and matched. *)
Class Collaborators := {
  sha256 : string → string;
  json_dumps : Commit → string;
  is_ignored : gmap string Node → string → bool
}.

(** ** The methods of [Repository] *)

Section Repository.

Context `{Collaborators}.

Definition nl : string := String "010"%char EmptyString.

(** The ignore file [init] writes. *)
Definition default_ignore : string :=
  "# Ignored files and directories" +:+ nl +:+
  ".repo/" +:+ nl +:+ "__pycache__/" +:+ nl +:+ "*.pyc" +:+ nl.

(** [init] *)
Definition init : M unit :=
  λ w, match repo w with
       | Some _ => (Raise RepositoryExists, w)
       | None =>
           let r := mkRepo ∅ (<["current" := Some "main"]> (<["main" := None]> ∅)) ∅ in
           let t := match tree w !! ".svcignore" with
                    | Some _ => tree w
                    | None => <[".svcignore" := NFile default_ignore]> (tree w)
                    end in
           (Ok tt, mkWorld t (Some r))
       end.

(** The body of [get_status]'s loop for one path of the tree. *)
Definition status_step (t : gmap string Node) (stg : gmap string Entry)
    (status : Status) (item : string * Node) : Status :=
  let '(rel_path, node) := item in
  if is_ignored t rel_path then status
  else match node with
       | NDir => status
       | NFile content =>
           match stg !! rel_path with
           | Some e =>
               if bool_decide (sha256 content ≠ hash e)
               then mkStatus (staged status) (modified status ++ [rel_path]) (untracked status)
               else mkStatus (staged status ++ [rel_path]) (modified status) (untracked status)
           | None =>
               mkStatus (staged status) (modified status) (untracked status ++ [rel_path])
           end
       end.

(** [get_status]; the order of [rglob] is the order of [map_to_list]. *)
Definition get_status : M Status :=
  ini <- is_initialized ;;
  raise_if (negb ini) NotARepository ;;;
  stg <- read_staging ;;
  t <- read_tree ;;
  ret (foldl (status_step t stg) (mkStatus [] [] []) (map_to_list t)).

(** [status['modified'] or status['staged']] as a condition. *)
Definition dirty (status : Status) : bool :=
  nonempty (modified status) || nonempty (staged status).

(** [stage_file]; [file_path] is the path relative to the root, already
    resolved, and [now] is the clock reading. *)
Definition stage_file (file_path now : string) : M unit :=
  ini <- is_initialized ;;
  raise_if (negb ini) NotARepository ;;;
  t <- read_tree ;;
  match t !! file_path with
  | None => raise (FileNotFound file_path)
  | Some NDir => raise (NotAFile file_path)
  | Some (NFile content) =>
      raise_if (is_ignored t file_path) (FileIgnored file_path) ;;;
      let file_hash := sha256 content in
      stg <- read_staging ;;
      write_staging (<[file_path := mkEntry file_hash now]> stg)
  end.

(** [author or os.environ.get('USER', 'unknown')] *)
Definition author_or_user (author user_env : option string) : string :=
  if truthy author then py_str author
  else match user_env with
       | Some u => u
       | None => "unknown"
       end.

(** [commit]; [now] is the clock reading and [user_env] the environment
    variable [USER] when it is set. *)
Definition commit (msg : string) (author : option string) (now : string)
    (user_env : option string) : M string :=
  ini <- is_initialized ;;
  raise_if (negb ini) NotARepository ;;;
  stg <- read_staging ;;
  raise_if (bool_decide (stg = ∅)) NoChangesStaged ;;;
  brs <- read_branches ;;
  cur <- getitem brs (Some "current") ;;
  par <- getitem brs (snd cur) ;;
  let current_branch := fst par in
  let parent_commit := snd par in
  let c := mkCommit msg (author_or_user author user_env) now
                    parent_commit stg in
  let commit_hash := sha256 (json_dumps c) in
  write_commit commit_hash c ;;;
  write_branches (<[current_branch := Some commit_hash]> brs) ;;;
  write_staging ∅ ;;;
  ret commit_hash.

(** [create_branch] *)
Definition create_branch (branch_name : string) : M unit :=
  ini <- is_initialized ;;
  raise_if (negb ini) NotARepository ;;;
  brs <- read_branches ;;
  raise_if (bool_decide (is_Some (brs !! branch_name))) (BranchExists branch_name) ;;;
  cur <- getitem brs (Some "current") ;;
  head <- getitem brs (snd cur) ;;
  write_branches (<[branch_name := snd head]> brs).

(** [list_branches]: [{k: v for k, v in branches.items() if k != 'current'}] *)
Definition list_branches : M (gmap string (option string)) :=
  ini <- is_initialized ;;
  raise_if (negb ini) NotARepository ;;;
  brs <- read_branches ;;
  ret (filter (λ kv, fst kv ≠ "current") brs).

(** [switch_branch] *)
Definition switch_branch (branch_name : string) : M unit :=
  ini <- is_initialized ;;
  raise_if (negb ini) NotARepository ;;;
  brs <- read_branches ;;
  raise_if (bool_decide (brs !! branch_name = None)) (BranchNotFound branch_name) ;;;
  status <- get_status ;;
  raise_if (dirty status) UncommittedSwitch ;;;
  write_branches (<["current" := Some branch_name]> brs).

(** [get_current_branch] *)
Definition get_current_branch : M (option string) :=
  ini <- is_initialized ;;
  raise_if (negb ini) NotARepository ;;;
  brs <- read_branches ;;
  cur <- getitem brs (Some "current") ;;
  ret (snd cur).

(** [_get_commit_history]: the [while current:] loop, one unit of fuel per
    iteration. *)
Fixpoint history_loop (fuel : nat) (history : list string)
    (current : option string) : M (list string) :=
  if truthy current then
    match fuel with
    | O => diverge
    | S fuel' =>
        let history := history ++ [py_str current] in
        c <- get_commit current ;;
        history_loop fuel' history (parent c)
    end
  else ret history.

Definition _get_commit_history (fuel : nat) (commit_hash : option string)
  : M (list string) :=
  history_loop fuel [] commit_hash.

(** The search for the common ancestor in [merge_branch]:
    [for commit in source_history: if commit in target_history: ...; break]. *)
Fixpoint first_common (source_history target_history : list string)
  : option string :=
  match source_history with
  | [] => None
  | c :: rest =>
      if bool_decide (c ∈ target_history) then Some c
      else first_common rest target_history
  end.

(** Both histories, the search, and [if not common_ancestor: raise]. *)
Definition common_ancestor (fuel : nat) (source_head target_head : option string)
  : M string :=
  source_history <- _get_commit_history fuel source_head ;;
  target_history <- _get_commit_history fuel target_head ;;
  let found := first_common source_history target_history in
  raise_if (negb (truthy found)) NoCommonAncestor ;;;
  ret (py_str found).

(** [files.get(file_path, {}).get('hash')] *)
Definition change_of (files : gmap string Entry) (file_path : string)
  : option string :=
  hash <$> files !! file_path.

(** The condition of the three-way comparison. *)
Definition differs (source_change target_change ancestor_change : option string)
  : bool :=
  bool_decide (source_change ≠ ancestor_change)
  && bool_decide (target_change ≠ ancestor_change)
  && bool_decide (source_change ≠ target_change).

(** The body of the loop over [all_files]. *)
Definition classify_step (source_files target_files ancestor_files : gmap string Entry)
    (result : MergeResult) (file_path : string) : MergeResult :=
  let source_change := change_of source_files file_path in
  let target_change := change_of target_files file_path in
  let ancestor_change := change_of ancestor_files file_path in
  if differs source_change target_change ancestor_change
  then mkMergeResult (conflicts result ++ [file_path]) (merged result)
  else mkMergeResult (conflicts result) (merged result ++ [file_path]).

(** The loop; a Python set has no fixed order, [elements] stands for it. *)
Definition classify (source_files target_files ancestor_files : gmap string Entry)
  : MergeResult :=
  let all_files : gset string := dom source_files ∪ dom target_files in
  foldl (classify_step source_files target_files ancestor_files)
        (mkMergeResult [] []) (elements all_files).

(** [merge_branch] *)
Definition merge_branch (fuel : nat) (branch_name : string) : M MergeResult :=
  ini <- is_initialized ;;
  raise_if (negb ini) NotARepository ;;;
  brs <- read_branches ;;
  raise_if (bool_decide (brs !! branch_name = None)) (BranchNotFound branch_name) ;;;
  cur <- getitem brs (Some "current") ;;
  let current_branch := snd cur in
  raise_if (bool_decide (Some branch_name = current_branch)) MergeIntoItself ;;;
  status <- get_status ;;
  raise_if (dirty status) UncommittedMerge ;;;
  src <- getitem brs (Some branch_name) ;;
  source_commit <- get_commit (snd src) ;;
  tgt <- getitem brs current_branch ;;
  target_commit <- get_commit (snd tgt) ;;
  ancestor <- common_ancestor fuel (snd src) (snd tgt) ;;
  let source_files := changes source_commit in
  let target_files := changes target_commit in
  ancestor_commit <- get_commit (Some ancestor) ;;
  let ancestor_files := changes ancestor_commit in
  ret (classify source_files target_files ancestor_files).

(** ** The public interface as a transition system *)

Inductive Op :=
| OInit
| OStage (file_path now : string)
| OCommit (msg : string) (author : option string) (now : string)
          (user_env : option string)
| OCreateBranch (branch_name : string)
| OSwitch (branch_name : string)
| OMerge (fuel : nat) (branch_name : string)
| OListBranches
| OGetCurrentBranch.

(** The file system a call leaves behind, whether it returns or raises. *)
Definition exec (o : Op) (w : World) : World :=
  match o with
  | OInit => snd (init w)
  | OStage file_path now => snd (stage_file file_path now w)
  | OCommit msg author now user_env => snd (commit msg author now user_env w)
  | OCreateBranch branch_name => snd (create_branch branch_name w)
  | OSwitch branch_name => snd (switch_branch branch_name w)
  | OMerge fuel branch_name => snd (merge_branch fuel branch_name w)
  | OListBranches => snd (list_branches w)
  | OGetCurrentBranch => snd (get_current_branch w)
  end.

(** A step is a call of the interface, or an edit of the working tree by
    its user. *)
Inductive step : World → World → Prop :=
| step_call o w : step w (exec o w)
| step_edit t w : step w (mkWorld t (repo w)).

(** The states that calls and edits lead to from a tree without [.repo/]. *)
Definition reachable (w : World) : Prop :=
  ∃ w0, repo w0 = None ∧ rtc step w0 w.

End Repository.

(** ** Predicates on the stores *)

(** The branches of a branch table: what [list_branches] reports. *)
Definition branch_names (brs : gmap string (option string)) : gset string :=
  dom (filter (λ kv, fst kv ≠ "current") brs).

(** The [current] entry names one of the branches. *)
Definition current_ok (brs : gmap string (option string)) : bool :=
  match brs !! "current" with
  | Some (Some cur) => bool_decide (cur ∈ branch_names brs)
  | _ => false
  end.

(** The working tree shows no staged and no modified file. *)
Definition clean `{Collaborators} (w : World) : Prop :=
  ∃ status, fst (get_status w) = Ok status ∧ dirty status = false.

(** The working tree shows a staged or a modified file. *)
Definition dirty_tree `{Collaborators} (w : World) : Prop :=
  ∃ status, fst (get_status w) = Ok status ∧ dirty status = true.

(** The commit files of a file system; none without [.repo/]. *)
Definition store (w : World) : gmap string Commit :=
  match repo w with
  | Some r => commits r
  | None => ∅
  end.

(** A computation that leaves the file system as it found it. *)
Definition readonly {A} (m : M A) : Prop := ∀ w, snd (m w) = w.

(** The parent links of a store lead from a commit id to the root: the
    list of the ids passed on the way, newest first. *)
Inductive parent_chain (cs : gmap string Commit)
  : option string → list string → Prop :=
| parent_chain_end v :
    truthy v = false → parent_chain cs v []
| parent_chain_link s c l :
    s ≠ "" → cs !! s = Some c → parent_chain cs (parent c) l →
    parent_chain cs (Some s) (s :: l).

(** [y] stands before [x] in a newest-first chain: it is strictly newer. *)
Definition newer (l : list string) (y x : string) : Prop :=
  ∃ i j, l !! i = Some y ∧ l !! j = Some x ∧ i < j.

(** A rank that falls along every parent link of the store: the links form
    no cycle. *)
Definition ranked (rank : string → nat) (cs : gmap string Commit) : Prop :=
  map_Forall (λ k c, match parent c with
                     | Some p => bool_decide (rank p < rank k)
                     | None => true
                     end = true) cs.

(** An id that can be the name of a file: no path separator, no NUL, and
    room left for the suffix [.json] in a name of 255 bytes.  For such an
    id [commits/{id}.json] is a file of [commits/], which is what
    [get_commit] of this model looks up. *)
Definition file_name (h : string) : bool :=
  forallb (λ c, negb (Ascii.eqb c "/") && negb (Ascii.eqb c "000"))
          (list_ascii_of_string h)
  && (String.length h <=? 250).

(** Every parent link of the store is such an id, as the digests are that
    [commit] writes. *)
Definition plain_links (cs : gmap string Commit) : Prop :=
  map_Forall (λ _ c, match parent c with
                     | Some p => file_name p
                     | None => true
                     end = true) cs.

(** The parent links lead from a commit id to the id [k]. *)
Inductive links (cs : gmap string Commit) : option string → string → Prop :=
| links_here s : s ≠ "" → links cs (Some s) s
| links_step s c k :
    s ≠ "" → cs !! s = Some c → links cs (parent c) k → links cs (Some s) k.

(** ** A worked history

    The scenario of two branches forked from a first commit, run through
    the interface with stand-ins for the digest, the JSON text and the
    ignore rules. *)
Module Scenario.

Definition env : Collaborators := {|
  sha256 s := "sha:" +:+ s;
  json_dumps c := message c +:+ "<" +:+ py_str (parent c);
  is_ignored t p := false
|}.

Definition edit (p content : string) (w : World) : World :=
  mkWorld (<[p := NFile content]> (tree w)) (repo w).

Definition call (o : Op) (w : World) : World := @exec env o w.

Definition empty : World := mkWorld ∅ None.
Definition fresh : World := call OInit empty.

(** [f.txt] staged, nothing committed yet. *)
Definition staged_one : World :=
  call (OStage "f.txt" "t1") (edit "f.txt" "one" fresh).

(** First commit on [main]. *)
Definition first_commit : World :=
  call (OCommit "first" (Some "ann") "t2" None) staged_one.

(** [dev] forked and advanced by one commit. *)
Definition on_dev : World :=
  call (OCommit "second" None "t4" (Some "bob"))
    (call (OStage "f.txt" "t3")
       (edit "f.txt" "two" (call (OSwitch "dev") (call (OCreateBranch "dev") first_commit)))).

(** Back on [main], advanced by one commit of its own. *)
Definition forked : World :=
  call (OCommit "third" None "t6" None)
    (call (OStage "f.txt" "t5")
       (edit "f.txt" "three" (call (OSwitch "main") on_dev))).

(** [dev] forked before any commit, and a file staged. *)
Definition unborn : World := call (OCreateBranch "dev") fresh.
Definition unborn_dirty : World :=
  call (OStage "f.txt" "t1") (edit "f.txt" "one" unborn).

(** Two branches without a commit, and a commit file named [None.json]. *)
Definition planted : World :=
  mkWorld ∅ (Some (mkRepo ∅
    (<["current" := Some "main"]> (<["dev" := None]> (<["main" := None]> ∅)))
    (<["None" := mkCommit "stray" "eve" "t0" None ∅]> ∅))).

(** A store whose only commit is its own parent. *)
Definition looped : World :=
  mkWorld ∅ (Some (mkRepo ∅
    (<["current" := Some "main"]> (<["main" := Some "c1"]> ∅))
    (<["c1" := mkCommit "loop" "eve" "t0" (Some "c1") ∅]> ∅))).

(** The repository of a state that has one. *)
Definition the_repo (w : World) : Repo := default (mkRepo ∅ ∅ ∅) (repo w).

(** [switch_branch "current"] right after [init], then a commit. *)
Definition astray : World := call (OSwitch "current") fresh.
Definition astray_commit : World :=
  call (OCommit "first" None "t2" None)
    (call (OStage "f.txt" "t1") (edit "f.txt" "one" astray)).
Definition astray_staged : World :=
  call (OStage "f.txt" "t3") (edit "f.txt" "two" astray_commit).

(** The id of [forked]'s root commit, and a rank on its commits. *)
Definition id1 : string := "sha:first<None".
Definition id2 : string := "sha:second<sha:first<None".
Definition id3 : string := "sha:third<sha:first<None".
Definition rank (k : string) : nat := if bool_decide (k = id1) then 0 else 1.

End Scenario.

(** ** Predicates for the invariants of the stores *)

(** Every head of a branch that is not null names a commit file. *)
Definition heads_resolve (r : Repo) : Prop :=
  ∀ k h, k ≠ "current" → branches r !! k = Some (Some h) →
         is_Some (commits r !! h).

(** Every parent link that is not null names a commit file. *)
Definition parents_resolve (cs : gmap string Commit) : Prop :=
  ∀ k c p, cs !! k = Some c → parent c = Some p → is_Some (cs !! p).

(** Every commit file is named by the digest of the record it holds. *)
Definition addressed `{Collaborators} (cs : gmap string Commit) : Prop :=
  ∀ k c, cs !! k = Some c → k = sha256 (json_dumps c).

(** Every value of the branch table that is a string, and every parent
    link, is a file name. *)
Definition plain_repo (r : Repo) : Prop :=
  map_Forall (λ _ v, match v with
                     | Some s => file_name s
                     | None => true
                     end = true) (branches r)
  ∧ plain_links (commits r).

(** Two outcomes of [merge_branch] that differ at most in the order of
    the paths in each list. *)
Definition same_merge (a b : outcome MergeResult) : Prop :=
  match a, b with
  | Ok x, Ok y => conflicts x ≡ₚ conflicts y ∧ merged x ≡ₚ merged y
  | Raise e, Raise e' => e = e'
  | Diverge, Diverge => True
  | _, _ => False
  end.

Section GuardedSteps.

Context `{Collaborators}.

(** A step other than the call [switch_branch("current")]. *)
Inductive guarded_step : World → World → Prop :=
| guarded_call o w : o ≠ OSwitch "current" → guarded_step w (exec o w)
| guarded_edit t w : guarded_step w (mkWorld t (repo w)).

(** The states reached from a tree without [.repo/] by such steps. *)
Definition guarded_reachable (w : World) : Prop :=
  ∃ w0, repo w0 = None ∧ rtc guarded_step w0 w.

End GuardedSteps.

(** ** The methods outside the commit / branch / merge core

    [get_file_content] and [clone] raise messages of their own, so their
    computations carry a wider type of exceptions. *)

Inductive Exn :=
| Core (e : Error)                   (* an exception of the core *)
| FileNotInCommit (p : string)       (* "File not found in commit: ..." *)
| SourceNotARepository (p : string)  (* "Not a repository: {source_path}" *)
| DestinationNotEmpty (p : string).  (* "Destination ... exists and is not an empty directory" *)

Inductive result (A : Type) :=
| Return (a : A)
| Throw (x : Exn)
| Hang.
Arguments Return {A} a.
Arguments Throw {A} x.
Arguments Hang {A}.

Definition IO (A : Type) : Type := World → result A * World.

Definition io_ret {A} (a : A) : IO A := λ w, (Return a, w).
Definition io_throw {A} (x : Exn) : IO A := λ w, (Throw x, w).
Definition io_bind {A B} (m : IO A) (k : A → IO B) : IO B :=
  λ w, match m w with
       | (Return a, w') => k a w'
       | (Throw x, w') => (Throw x, w')
       | (Hang, w') => (Hang, w')
       end.

(** A computation of the core, run as it is. *)
Definition lift {A} (m : M A) : IO A :=
  λ w, match m w with
       | (Ok a, w') => (Return a, w')
       | (Raise e, w') => (Throw (Core e), w')
       | (Diverge, w') => (Hang, w')
       end.

Notation "x <~ c ;; k" := (io_bind c (λ x, k))
  (at level 100, c at next level, right associativity).
Notation "c ;;~ k" := (io_bind c (λ _, k))
  (at level 100, right associativity).

Definition throw_if (cond : bool) (x : Exn) : IO unit :=
  if cond then io_throw x else io_ret tt.

(** [get_file_content]: the commit defaults to the head of the current
    branch; the bytes come from the working tree.  A directory at the path
    makes [open] raise [IsADirectoryError], an [OSError]. *)
Definition get_file_content (file_path : string) (commit_hash : option string)
  : IO string :=
  ini <~ lift is_initialized ;;
  throw_if (negb ini) (Core NotARepository) ;;~
  commit_hash <~ match commit_hash with
                 | None =>
                     brs <~ lift read_branches ;;
                     cur <~ lift (getitem brs (Some "current")) ;;
                     head <~ lift (getitem brs (snd cur)) ;;
                     io_ret (snd head)
                 | Some _ => io_ret commit_hash
                 end ;;
  c <~ lift (get_commit commit_hash) ;;
  throw_if (bool_decide (changes c !! file_path = None))
           (FileNotInCommit file_path) ;;~
  t <~ lift read_tree ;;
  match t !! file_path with
  | None => io_throw (Core (FileNotFound file_path))
  | Some NDir => io_throw (Core OSError)
  | Some (NFile content) => io_ret content
  end.

(** *** clone *)

(** The file utilities [clone] calls on the destination tree:
    [Path.mkdir(parents=True, exist_ok=True)] on the parent of a path, and
    [shutil.copy2] of a file's bytes to a path.  Each gives the tree it
    leaves and whether it returned ([true]) or raised an [OSError]. *)
Class FileUtils := {
  mkdir_parents : gmap string Node → string → bool * gmap string Node;
  copy2 : string → gmap string Node → string → bool * gmap string Node
}.

(** What is at the destination path of [clone]. *)
Inductive Place :=
| Absent
| NotADirectory
| Directory (w : World).

Section Clone.

Context `{Collaborators} `{FileUtils}.

Definition run_util (f : gmap string Node → bool * gmap string Node) : IO unit :=
  λ w, let '(ok, t) := f (tree w) in
       (if ok then Return tt else Throw (Core OSError), mkWorld t (repo w)).

(** One pass of the inner loop of [_copy_repository_data]: the file of the
    source tree at a path of a commit's changes, when there is one. *)
Definition copy_file (source : World) (file_path : string) : IO unit :=
  match tree source !! file_path with
  | Some (NFile content) =>
      run_util (λ t, mkdir_parents t file_path) ;;~
      run_util (λ t, copy2 content t file_path)
  | _ => io_ret tt
  end.

Fixpoint for_each {A} (f : A → IO unit) (l : list A) : IO unit :=
  match l with
  | [] => io_ret tt
  | a :: l' => f a ;;~ for_each f l'
  end.

(** One pass of the outer loop: the commit file, then its files. *)
Definition copy_commit (source : World) (item : string * Commit) : IO unit :=
  lift (write_commit (fst item) (snd item)) ;;~
  for_each (copy_file source) (fst <$> map_to_list (changes (snd item))).

(** [_copy_repository_data], run on the destination; the source is only
    read.  [glob] and [items] go in the order of [map_to_list]. *)
Definition _copy_repository_data (source : World) : IO unit :=
  for_each (copy_commit source) (map_to_list (store source)) ;;~
  source_branches <~ (λ w, (match repo source with
                            | Some r => Return (branches r)
                            | None => Throw (Core OSError)
                            end, w)) ;;
  lift (write_branches source_branches) ;;~
  match tree source !! ".svcignore" with
  | None => io_ret tt
  | Some NDir => io_throw (Core OSError)
  | Some (NFile content) => run_util (λ t, copy2 content t ".svcignore")
  end.

(** [clone]: the source is read, the destination written.  The two paths
    name separate places, and [mkdir] of an absent destination returns. *)
Definition clone (source_path destination_path : string) (source : World)
    (destination : Place) : result unit * Place :=
  match repo source with
  | None => (Throw (SourceNotARepository source_path), destination)
  | Some _ =>
      let start : option World :=
        match destination with
        | Absent => Some (mkWorld ∅ None)
        | NotADirectory => None
        | Directory w =>
            if bool_decide (tree w = ∅ ∧ repo w = None) then Some w else None
        end in
      match start with
      | None => (Throw (DestinationNotEmpty destination_path), destination)
      | Some w =>
          let '(o, w') := (lift init ;;~ _copy_repository_data source) w in
          (o, Directory w')
      end
  end.

End Clone.

(** ** The command line ([svcs/__main__.py])

    The commands [init], [add], [commit], [branch] and [checkout] of
    [main], after [argparse].  A line printed is kept as the print statement
    and the values it formats, not as the text. *)

(** What the [try] of [main] can catch from these commands: an exception
    of a method, or the [TypeError] of slicing [None]. *)
Inductive Crash :=
| Raised (e : Error)
| TypeError.

Inductive Line :=
| InitializedLine                          (* "Initialized empty repository" *)
| StagedLine (file_path : string)          (* f"Staged: {file_path}" *)
| ErrorStagingLine (file_path : string) (e : Error)
                                           (* f"Error staging {file_path}: {str(e)}" *)
| CreatedCommitLine (short : string)       (* f"Created commit {commit_hash[:8]}" *)
| CreatedBranchLine (name : string)        (* f"Created branch {args.name}" *)
| BranchLine (current : bool) (name short : string)
                                           (* f"{prefix} {name} ({commit[:8]})" *)
| SwitchedLine (name : string)             (* f"Switched to branch {args.branch}" *)
| ErrorLine (c : Crash).                   (* f"Error: {str(e)}" *)

Record Console := mkConsole {
  stdout : list Line;
  stderr : list Line
}.

(** The parsed arguments. *)
Inductive Command :=
| CmdInit
| CmdAdd (files : list string)
| CmdCommit (message : string) (author : option string)
| CmdBranch (name : option string)
| CmdCheckout (branch : string).

(** What the process reads besides its arguments: the clock while the
    n-th file of the command is handled, and the variable [USER]. *)
Record Environment := mkEnvironment {
  clock : nat → string;
  user : option string
}.

(** [s[:8]] on a string of one-byte characters. *)
Definition short_id (s : string) : string := substring 0 8 s.

Section CommandLine.

Context `{Collaborators}.

Definition say (l : Line) (con : Console) : Console :=
  mkConsole (stdout con ++ [l]) (stderr con).
Definition complain (l : Line) (con : Console) : Console :=
  mkConsole (stdout con) (stderr con ++ [l]).

(** The loop of [add]: each file in its own [try]. *)
Fixpoint add_loop (env : Environment) (n : nat) (files : list string)
    (con : Console) (w : World) : option (Console * World) :=
  match files with
  | [] => Some (con, w)
  | file_path :: rest =>
      match stage_file file_path (clock env n) w with
      | (Ok _, w') => add_loop env (S n) rest (say (StagedLine file_path) con) w'
      | (Raise e, w') =>
          add_loop env (S n) rest (complain (ErrorStagingLine file_path e) con) w'
      | (Diverge, _) => None
      end
  end.

(** The loop of [branch] without a name, over [branches.items()] in the
    order of [map_to_list]; the slice raises on a null head. *)
Fixpoint branch_loop (current : option string)
    (items : list (string * option string)) (con : Console)
  : option Crash * Console :=
  match items with
  | [] => (None, con)
  | (name, head) :: rest =>
      match head with
      | None => (Some TypeError, con)
      | Some h =>
          branch_loop current rest
            (say (BranchLine (bool_decide (Some name = current)) name (short_id h)) con)
      end
  end.

(** The body of the [try], for one command: what was caught, if anything,
    is the first component; [None] as a whole is a call that does not
    return. *)
Definition dispatch (env : Environment) (cmd : Command) (w : World)
  : option (option Crash * Console * World) :=
  let con := mkConsole [] [] in
  let finish {A} (r : outcome A * World) (l : A → Line) :=
    match r with
    | (Ok a, w') => Some (None, say (l a) con, w')
    | (Raise e, w') => Some (Some (Raised e), con, w')
    | (Diverge, _) => None
    end in
  match cmd with
  | CmdInit => finish (init w) (λ _, InitializedLine)
  | CmdAdd files =>
      match add_loop env 0 files con w with
      | Some (con', w') => Some (None, con', w')
      | None => None
      end
  | CmdCommit message author =>
      finish (commit message author (clock env 0) (user env) w)
             (λ commit_hash, CreatedCommitLine (short_id commit_hash))
  | CmdBranch name =>
      if truthy name then
        finish (create_branch (py_str name) w) (λ _, CreatedBranchLine (py_str name))
      else
        match list_branches w with
        | (Ok brs, w1) =>
            match get_current_branch w1 with
            | (Ok current, w2) =>
                let '(c, con') := branch_loop current (map_to_list brs) con in
                Some (c, con', w2)
            | (Raise e, w2) => Some (Some (Raised e), con, w2)
            | (Diverge, _) => None
            end
        | (Raise e, w1) => Some (Some (Raised e), con, w1)
        | (Diverge, _) => None
        end
  | CmdCheckout branch =>
      finish (switch_branch branch w) (λ _, SwitchedLine branch)
  end.

(** [main]: the exit status, what was printed, and the file system left.
    An exception caught is printed on the error stream and the status is
    1. *)
Definition main (env : Environment) (cmd : Command) (w : World)
  : option (nat * Console * World) :=
  match dispatch env cmd w with
  | Some (None, con, w') => Some (0, con, w')
  | Some (Some c, con, w') => Some (1, complain (ErrorLine c) con, w')
  | None => None
  end.

End CommandLine.

(** [stage_file] would take the path: a file of the tree that is not
    ignored. *)
Definition stageable `{Collaborators} (t : gmap string Node) (p : string)
  : bool :=
  match t !! p with
  | Some (NFile _) => negb (is_ignored t p)
  | _ => false
  end.

(** The components of a path, between its separators. *)
Fixpoint components (p : string) : list string :=
  match p with
  | EmptyString => [EmptyString]
  | String c rest =>
      if Ascii.eqb c "/" then EmptyString :: components rest
      else match components rest with
           | [] => [String c EmptyString]
           | x :: xs => String c x :: xs
           end
  end.

(** A relative path in the form [resolve] leaves alone in a tree without
    symbolic links: no empty component (so it is not absolute and has no
    doubled or trailing separator), and no component [.] or [..].  For such
    an argument [(root_path / file_path).resolve()] is [root_path /
    file_path], and [relative_to] gives the argument back. *)
Definition normal (p : string) : bool :=
  forallb (λ c, negb (bool_decide (c = "") || bool_decide (c = ".")
                      || bool_decide (c = "..")))
          (components p).

(** The path a line of the error stream of [add] is about. *)
Definition staging_error_of (p : string) (l : Line) : Prop :=
  ∃ e, l = ErrorStagingLine p e.

(** ** The worked history, continued *)

Module Replica.

Import Scenario.

(** File utilities that return: the parent of each path is there, and the
    copy leaves the bytes at the path. *)
Definition utils : FileUtils := {|
  mkdir_parents t p := (true, t);
  copy2 content t p := (true, <[p := NFile content]> t)
|}.

Definition shell : Environment := {|
  clock n := "t9";
  user := None
|}.

(** On [main] again while only [dev] has advanced. *)
Definition behind : World := call (OSwitch "main") on_dev.

(** The fork, with an edit of [f.txt] staged and not committed. *)
Definition forked_staged : World :=
  call (OStage "f.txt" "t7") (edit "f.txt" "four" forked).

(** Its clone at a path where nothing is. *)
Definition cloned : result unit * Place :=
  @clone utils "src" "dst" forked_staged Absent.
Definition replica : World :=
  match snd cloned with
  | Directory w => w
  | _ => empty
  end.

(** The clone of the fork as it is, with nothing staged. *)
Definition replica_fork : World :=
  match snd (@clone utils "src" "dst" forked Absent) with
  | Directory w => w
  | _ => empty
  end.

End Replica.

(** * Properties *)

(** ** Running the monad *)

Ltac unfold_prims :=
  unfold raise_if, getitem, read_staging, read_branches, read_tree,
    write_staging, write_branches, write_commit, read_repo, write_repo,
    is_initialized, get_commit, bind, ret, raise, diverge in *;
  cbv beta in *.

Lemma readonly_ret {A} (a : A) : readonly (ret a).
Proof. by intros w. Qed.

Lemma readonly_raise {A} (e : Error) : readonly (@raise A e).
Proof. by intros w. Qed.

Lemma readonly_diverge {A} : readonly (@diverge A).
Proof. by intros w. Qed.

Lemma readonly_bind {A B} (m : M A) (k : A → M B) :
  readonly m → (∀ a, readonly (k a)) → readonly (bind m k).
Proof.
  intros Hm Hk w. unfold bind.
  specialize (Hm w). destruct (m w) as [[a| e |] w']; simpl in *; subst; auto.
  apply Hk.
Qed.

Lemma readonly_raise_if (b : bool) (e : Error) : readonly (raise_if b e).
Proof. destruct b; [apply readonly_raise | apply readonly_ret]. Qed.

Lemma readonly_is_initialized : readonly is_initialized.
Proof. by intros w. Qed.

Lemma readonly_read_repo {A} (f : Repo → A) : readonly (read_repo f).
Proof. intros w. unfold read_repo. by destruct (repo w). Qed.

Lemma readonly_read_tree : readonly read_tree.
Proof. by intros w. Qed.

Lemma readonly_getitem d k : readonly (getitem d k).
Proof.
  unfold getitem. destruct k as [k|]; [|apply readonly_raise].
  destruct (d !! k); [apply readonly_ret | apply readonly_raise].
Qed.

Lemma readonly_get_commit h : readonly (get_commit h).
Proof. intros w. unfold get_commit. by destruct (_ ≫= _). Qed.

Lemma readonly_history_loop fuel history current :
  readonly (history_loop fuel history current).
Proof.
  revert history current. induction fuel as [|n IH]; intros history current;
    simpl; destruct (truthy current); auto using readonly_ret, readonly_diverge.
  apply readonly_bind; [apply readonly_get_commit | intros c; apply IH].
Qed.

Lemma readonly_common_ancestor fuel a b : readonly (common_ancestor fuel a b).
Proof.
  unfold common_ancestor, _get_commit_history.
  repeat (apply readonly_bind; [| intros ?]);
    auto using readonly_history_loop, readonly_raise_if, readonly_ret.
Qed.

Create HintDb readonly.

#[local] Hint Resolve readonly_ret readonly_raise readonly_diverge
  readonly_raise_if readonly_is_initialized readonly_read_repo
  readonly_read_tree readonly_getitem readonly_get_commit
  readonly_history_loop readonly_common_ancestor : readonly.

Ltac readonly_steps :=
  repeat first [ solve [auto with readonly]
               | apply readonly_bind; [| intros ?] ].

Section Properties.

Context `{Collaborators}.

Lemma readonly_get_status : readonly get_status.
Proof. unfold get_status, read_staging. readonly_steps. Qed.

#[local] Hint Resolve readonly_get_status : readonly.

Lemma readonly_merge_branch fuel branch_name :
  readonly (merge_branch fuel branch_name).
Proof.
  unfold merge_branch, read_branches. readonly_steps.
Qed.

(** *** Stepping through a call on an initialized repository *)

Lemma initialized_true w r :
  repo w = Some r → bool_decide (is_Some (repo w)) = true.
Proof. intros ->. by apply bool_decide_eq_true_2. Qed.

Lemma current_ok_inv brs :
  current_ok brs = true →
  ∃ cur head, brs !! "current" = Some (Some cur) ∧ cur ≠ "current"
              ∧ brs !! cur = Some head.
Proof.
  unfold current_ok, branch_names. intros Hok.
  destruct (brs !! "current") as [[cur|]|] eqn:Hcur; try done.
  apply bool_decide_eq_true_1, elem_of_dom in Hok as [head Hhead].
  apply map_lookup_filter_Some in Hhead as [Hhead Hne]. simpl in Hne.
  by exists cur, head.
Qed.

(** *** commit *)

(** C7. On an initialized repository whose staging table is empty, [commit]
    raises "No changes staged for commit" (EmptyStagingError) and the file
    system, hence the staging table, the branch table and the commit store,
    is the one it was called on. *)
Theorem commit_empty_staging msg author now user_env w r :
  repo w = Some r →
  staging r = ∅ →
  commit msg author now user_env w = (Raise NoChangesStaged, w).
Proof.
  intros Hr Hs. unfold commit. unfold_prims.
  rewrite (initialized_true w r Hr). simpl. rewrite Hr, Hs.
  by rewrite bool_decide_eq_true_2.
Qed.

(** C6 (as amended). On an initialized repository whose current entry
    names one of the branches of the branch table
    and whose staging table is not empty, [commit] returns an id [c];
    [get_commit c] then yields a record whose changes are the staging
    table as it was, whose parent is the head the current branch had, the
    staging table is empty, and the current branch's head is [c]. *)
Theorem commit_roundtrip msg author now user_env w r :
  repo w = Some r →
  staging r ≠ ∅ →
  current_ok (branches r) = true →
  ∃ cur head c rec w' r',
    branches r !! "current" = Some (Some cur)
    ∧ branches r !! cur = Some head
    ∧ commit msg author now user_env w = (Ok c, w')
    ∧ get_commit (Some c) w' = (Ok rec, w')
    ∧ changes rec = staging r
    ∧ parent rec = head
    ∧ c = sha256 (json_dumps rec)
    ∧ repo w' = Some r'
    ∧ tree w' = tree w
    ∧ staging r' = ∅
    ∧ commits r' = <[c := rec]> (commits r)
    ∧ branches r' = <[cur := Some c]> (branches r)
    ∧ branches r' !! "current" = Some (Some cur)
    ∧ branches r' !! cur = Some (Some c).
Proof.
  intros Hr Hs Hok.
  destruct (current_ok_inv _ Hok) as (cur & head & Hcur & Hne & Hhead).
  set (rec := mkCommit msg (author_or_user author user_env) now head (staging r)).
  set (c := sha256 (json_dumps rec)).
  exists cur, head, c, rec.
  eexists (mkWorld (tree w) (Some (mkRepo ∅ (<[cur := Some c]> (branches r))
                                         (<[c := rec]> (commits r))))), _.
  split_and!; try done.
  - unfold commit. unfold_prims.
    rewrite (initialized_true w r Hr). simpl. rewrite Hr.
    rewrite bool_decide_eq_false_2 by done. simpl. rewrite Hr.
    rewrite Hcur. simpl. rewrite Hhead. simpl. by rewrite Hr.
  - unfold get_commit. simpl. by rewrite lookup_insert_eq.
  - simpl. by rewrite lookup_insert_ne.
  - simpl. by rewrite lookup_insert_eq.
Qed.

(** *** get_status *)

Lemma get_status_pair w status :
  fst (get_status w) = Ok status → get_status w = (Ok status, w).
Proof.
  intros Hst. pose proof (readonly_get_status w) as Hw.
  destruct (get_status w) as [o w']. simpl in *. by subst.
Qed.

Lemma get_status_initialized w r :
  repo w = Some r → ∃ status, get_status w = (Ok status, w).
Proof.
  intros Hr. unfold get_status. unfold_prims.
  rewrite (initialized_true w r Hr). simpl. rewrite Hr. eauto.
Qed.

Lemma get_status_uninitialized w :
  repo w = None → get_status w = (Raise NotARepository, w).
Proof.
  intros Hr. unfold get_status. unfold_prims.
  rewrite Hr. by rewrite bool_decide_eq_false_2 by (by intros [? ?]).
Qed.

Lemma clean_or_dirty w r : repo w = Some r → clean w ∨ dirty_tree w.
Proof.
  intros Hr. destruct (get_status_initialized w r Hr) as [status Hst].
  unfold clean, dirty_tree. rewrite Hst. simpl.
  destruct (dirty status) eqn:Hd; eauto.
Qed.

Lemma clean_not_dirty w : clean w → ¬ dirty_tree w.
Proof.
  intros (status & Hst & Hd) (status' & Hst' & Hd'). congruence.
Qed.

(** An empty staging table makes every tree clean. *)
Lemma status_step_unstaged t st item :
  staged st = [] → modified st = [] →
  let st' := status_step t ∅ st item in staged st' = [] ∧ modified st' = [].
Proof.
  intros Hs Hm. destruct item as [p node]. simpl.
  destruct (is_ignored t p); [done|]. destruct node; [|done].
  by rewrite lookup_empty.
Qed.

Lemma clean_empty_staging w r : repo w = Some r → staging r = ∅ → clean w.
Proof.
  intros Hr Hs. unfold clean, get_status. unfold_prims.
  rewrite (initialized_true w r Hr). simpl. rewrite Hr, Hs. simpl.
  eexists; split; [done|].
  assert (∀ l st, staged st = [] → modified st = [] →
            dirty (foldl (status_step (tree w) ∅) st l) = false) as Hfold.
  { induction l as [|item l IH]; intros st Hst Hmod; simpl.
    - unfold dirty. by rewrite Hst, Hmod.
    - destruct (status_step_unstaged (tree w) st item Hst Hmod). by apply IH. }
  by apply Hfold.
Qed.

(** *** merge_branch: effect and preconditions *)

(** C8. [merge_branch] writes nothing: whatever it returns, raises or
    however long it runs, the file system after the call (staging table,
    branch table with its current pointer, commit store, working tree) is
    the one before it, so no commit record is created. *)
Theorem merge_branch_readonly fuel branch_name w :
  snd (merge_branch fuel branch_name w) = w.
Proof. apply readonly_merge_branch. Qed.

Arguments get_status : simpl never.
Arguments common_ancestor : simpl never.

Ltac merge_start Hr :=
  unfold merge_branch; unfold_prims;
  rewrite (initialized_true _ _ Hr); simpl; rewrite Hr; simpl.

Lemma merge_uninitialized fuel branch_name w :
  repo w = None → merge_branch fuel branch_name w = (Raise NotARepository, w).
Proof.
  intros Hr. unfold merge_branch. unfold_prims.
  rewrite Hr. by rewrite bool_decide_eq_false_2 by (by intros [? ?]).
Qed.

Lemma merge_branch_not_found fuel branch_name w r :
  repo w = Some r → branches r !! branch_name = None →
  merge_branch fuel branch_name w = (Raise (BranchNotFound branch_name), w).
Proof.
  intros Hr Hb. merge_start Hr. by rewrite bool_decide_eq_true_2.
Qed.

Lemma merge_into_itself fuel branch_name w r :
  repo w = Some r → branches r !! "current" = Some (Some branch_name) →
  is_Some (branches r !! branch_name) →
  merge_branch fuel branch_name w = (Raise MergeIntoItself, w).
Proof.
  intros Hr Hcur [v Hb]. merge_start Hr.
  rewrite bool_decide_eq_false_2 by congruence. simpl.
  rewrite Hcur. simpl. by rewrite bool_decide_eq_true_2.
Qed.

Lemma merge_dirty fuel branch_name w r cur :
  repo w = Some r → is_Some (branches r !! branch_name) →
  branches r !! "current" = Some cur → cur ≠ Some branch_name →
  dirty_tree w →
  merge_branch fuel branch_name w = (Raise UncommittedMerge, w).
Proof.
  intros Hr [v Hb] Hcur Hne (status & Hst & Hd). merge_start Hr.
  rewrite bool_decide_eq_false_2 by congruence. simpl.
  rewrite Hcur. simpl. rewrite bool_decide_eq_false_2 by congruence. simpl.
  rewrite (get_status_pair _ _ Hst). by rewrite Hd.
Qed.

(** What a call of [merge_branch] that returns has passed. *)
Lemma merge_ok_inv fuel branch_name w result :
  fst (merge_branch fuel branch_name w) = Ok result →
  ∃ r cur, repo w = Some r ∧ is_Some (branches r !! branch_name)
    ∧ branches r !! "current" = Some cur ∧ cur ≠ Some branch_name ∧ clean w.
Proof.
  intros Hm. destruct (repo w) as [r|] eqn:Hr.
  2: { by rewrite merge_uninitialized in Hm. }
  destruct (branches r !! branch_name) as [v|] eqn:Hb.
  2: { by rewrite (merge_branch_not_found _ _ _ r) in Hm. }
  destruct (branches r !! "current") as [cur|] eqn:Hcur.
  2: { revert Hm. merge_start Hr.
       rewrite bool_decide_eq_false_2 by congruence. simpl. by rewrite Hcur. }
  destruct (decide (cur = Some branch_name)) as [->|Hne].
  { by rewrite (merge_into_itself _ _ _ r) in Hm. }
  destruct (clean_or_dirty w r Hr) as [Hc|Hd].
  - exists r, cur. by rewrite Hb.
  - rewrite (merge_dirty _ _ _ r cur) in Hm; by rewrite ?Hb.
Qed.


(** C10 (as amended). On an initialized repository with a clean working
    tree, where the source branch exists, is not the current one, and
    either its head or the current branch's head is null, and where no
    commit file is named for the text [None], [merge_branch] raises "Commit
    not found" (CommitNotFoundError), for the id [None] when the source head
    is the null one, and leaves the file system as it was. *)
Theorem merge_null_head fuel branch_name w r cur source_head target_head :
  repo w = Some r →
  branches r !! branch_name = Some source_head →
  branches r !! "current" = Some (Some cur) →
  cur ≠ branch_name →
  branches r !! cur = Some target_head →
  source_head = None ∨ target_head = None →
  clean w →
  commits r !! "None" = None →
  ∃ h, merge_branch fuel branch_name w = (Raise (CommitNotFound h), w)
       ∧ (source_head = None → h = "None").
Proof.
  intros Hr Hsrc Hcur Hne Htgt Hnull (status & Hst & Hd) Hnone.
  unfold merge_branch. unfold_prims.
  rewrite (initialized_true _ _ Hr); simpl; rewrite Hr; simpl.
  rewrite bool_decide_eq_false_2 by congruence. simpl.
  rewrite Hcur. simpl. rewrite bool_decide_eq_false_2 by congruence. simpl.
  rewrite (get_status_pair _ _ Hst). rewrite Hd. simpl. rewrite Hsrc. simpl.
  rewrite Hr. simpl.
  destruct source_head as [s|]; simpl.
  - destruct Hnull as [? | ->]; [done|].
    destruct (commits r !! s) as [c|] eqn:Hs; simpl.
    + rewrite Htgt. simpl. rewrite Hr. simpl. rewrite Hnone. by eexists.
    + by eexists.
  - rewrite Hnone. by eexists.
Qed.

(** *** _get_commit_history *)

Lemma get_commit_store h w :
  get_commit h w = match store w !! py_str h with
                   | Some c => (Ok c, w)
                   | None => (Raise (CommitNotFound (py_str h)), w)
                   end.
Proof.
  unfold get_commit, store. destruct (repo w); simpl; [done|].
  by rewrite lookup_empty.
Qed.

Lemma truthy_inv v : truthy v = true → ∃ s, v = Some s ∧ s ≠ "".
Proof.
  destruct v as [s|]; [|done]. simpl. intros Hs%bool_decide_eq_true_1. eauto.
Qed.

(** One turn of the loop. *)
Lemma history_loop_falsy fuel acc cur w :
  truthy cur = false → history_loop fuel acc cur w = (Ok acc, w).
Proof. intros Hc. destruct fuel; simpl; by rewrite Hc. Qed.

Lemma history_loop_missing fuel acc s w :
  s ≠ "" → store w !! s = None →
  history_loop (S fuel) acc (Some s) w = (Raise (CommitNotFound s), w).
Proof.
  intros Hs Hmiss. simpl. rewrite bool_decide_eq_true_2 by done.
  unfold bind. rewrite get_commit_store. simpl. by rewrite Hmiss.
Qed.

Lemma history_loop_link fuel acc s c w :
  s ≠ "" → store w !! s = Some c →
  history_loop (S fuel) acc (Some s) w
  = history_loop fuel (acc ++ [s]) (parent c) w.
Proof.
  intros Hs Hc. simpl. rewrite bool_decide_eq_true_2 by done.
  unfold bind. rewrite get_commit_store. simpl. by rewrite Hc.
Qed.

(** The list built so far only grows at its end. *)
Lemma history_loop_acc fuel acc cur w :
  history_loop fuel acc cur w
  = match history_loop fuel [] cur w with
    | (Ok l, w') => (Ok (acc ++ l), w')
    | other => other
    end.
Proof.
  revert acc cur. induction fuel as [|n IH]; intros acc cur.
  - simpl. destruct (truthy cur); simpl; by rewrite ?app_nil_r.
  - destruct (truthy cur) eqn:Ht.
    2: { rewrite !history_loop_falsy by done. by rewrite app_nil_r. }
    apply truthy_inv in Ht as (s & -> & Hs).
    destruct (store w !! s) as [c|] eqn:Hc.
    2: { by rewrite !history_loop_missing. }
    rewrite !(history_loop_link _ _ s c) by done.
    rewrite (IH (acc ++ [s])), (IH ([] ++ [s])).
    destruct (history_loop n [] (parent c) w) as [[l| |] w']; try done.
    by rewrite <- app_assoc.
Qed.

(** A history that is returned follows the parent links. *)
Lemma history_parent_chain fuel cur w l :
  fst (history_loop fuel [] cur w) = Ok l → parent_chain (store w) cur l.
Proof.
  revert cur l. induction fuel as [|n IH]; intros cur l.
  - simpl. destruct (truthy cur) eqn:Ht; [done|].
    simpl. intros [= <-]. by constructor.
  - destruct (truthy cur) eqn:Ht.
    2: { rewrite history_loop_falsy by done. intros [= <-]. by constructor. }
    apply truthy_inv in Ht as (s & -> & Hs).
    destruct (store w !! s) as [c|] eqn:Hc.
    2: { by rewrite history_loop_missing. }
    rewrite (history_loop_link _ _ s c) by done.
    rewrite history_loop_acc.
    destruct (history_loop n [] (parent c) w) as [[l'| |] w'] eqn:Hl; try done.
    simpl. intros [= <-]. econstructor; [done..|]. apply IH. by rewrite Hl.
Qed.

(** It is no longer than the fuel. *)
Lemma history_length fuel cur w l :
  fst (history_loop fuel [] cur w) = Ok l → length l ≤ fuel.
Proof.
  revert cur l. induction fuel as [|n IH]; intros cur l.
  - simpl. destruct (truthy cur); [done|]. by intros [= <-].
  - destruct (truthy cur) eqn:Ht.
    2: { rewrite history_loop_falsy by done. intros [= <-]. simpl. lia. }
    apply truthy_inv in Ht as (s & -> & Hs).
    destruct (store w !! s) as [c|] eqn:Hc.
    2: { by rewrite history_loop_missing. }
    rewrite (history_loop_link _ _ s c) by done.
    rewrite history_loop_acc.
    destruct (history_loop n [] (parent c) w) as [[l'| |] w'] eqn:Hl; try done.
    simpl. intros [= <-]. simpl. apply le_n_S, (IH (parent c)). by rewrite Hl.
Qed.

(** And the parent links, followed to their end, are what is returned. *)
Lemma parent_chain_history w cur l :
  parent_chain (store w) cur l →
  ∀ fuel, length l ≤ fuel → history_loop fuel [] cur w = (Ok l, w).
Proof.
  induction 1 as [v Hv | s c l Hs Hc Hl IH]; intros fuel Hfuel.
  - by apply history_loop_falsy.
  - destruct fuel as [|n]; simpl in Hfuel; [lia|].
    rewrite (history_loop_link _ _ s c) by done.
    rewrite history_loop_acc, IH by lia. done.
Qed.

Lemma parent_chain_det cs cur l1 l2 :
  parent_chain cs cur l1 → parent_chain cs cur l2 → l1 = l2.
Proof.
  intros H1. revert l2.
  induction H1 as [v Hv | s c l Hs Hc Hl IH]; intros l2 H2.
  - inversion H2 as [| s c l Hs Hc Hl]; subst; [done|].
    simpl in Hv. by rewrite bool_decide_eq_true_2 in Hv.
  - inversion H2 as [v Hv | s' c' l' Hs' Hc' Hl']; subst.
    + simpl in Hv. by rewrite bool_decide_eq_true_2 in Hv.
    + f_equal. apply IH. congruence.
Qed.

(** Every id of a chain heads the rest of the chain. *)
Lemma parent_chain_suffix cs cur l1 x l2 :
  parent_chain cs cur (l1 ++ x :: l2) → parent_chain cs (Some x) (x :: l2).
Proof.
  revert cur. induction l1 as [|y l1 IH]; intros cur Hch; simpl in Hch.
  - inversion Hch; subst. by econstructor.
  - inversion Hch; subst. by eapply IH.
Qed.

(** So no id occurs twice: a chain that is returned has no cycle. *)
Lemma parent_chain_NoDup cs cur l : parent_chain cs cur l → NoDup l.
Proof.
  induction 1 as [v Hv | s c l Hs Hc Hl IH]; constructor; [|done].
  intros (l1 & l2 & ->)%list_elem_of_split.
  pose proof (parent_chain_suffix _ _ _ _ _ Hl) as Hsuf.
  inversion Hsuf as [| s' c' l' _ Hc' Hl']; subst.
  assert (c' = c) as -> by congruence.
  pose proof (parent_chain_det _ _ _ _ Hl Hl') as Heq.
  apply (f_equal length) in Heq. rewrite length_app in Heq. simpl in Heq. lia.
Qed.

(** With a rank on the store, fuel above the rank of the start is enough,
    and more fuel changes nothing. *)
Lemma history_loop_ranked rank w :
  ranked rank (store w) →
  ∀ n acc cur, (truthy cur = true → rank (py_str cur) < n) →
  ∀ fuel, n ≤ fuel →
    history_loop fuel acc cur w = history_loop n acc cur w
    ∧ fst (history_loop n acc cur w) ≠ Diverge.
Proof.
  intros Hrank. induction n as [|n IH]; intros acc cur Hlt fuel Hfuel.
  - destruct (truthy cur) eqn:Ht; [specialize (Hlt eq_refl); lia|].
    by rewrite !history_loop_falsy.
  - destruct (truthy cur) eqn:Ht.
    2: { by rewrite !history_loop_falsy. }
    apply truthy_inv in Ht as (s & -> & Hs).
    destruct fuel as [|fuel]; [lia|].
    destruct (store w !! s) as [c|] eqn:Hc.
    2: { by rewrite !history_loop_missing. }
    rewrite !(history_loop_link _ _ s c) by done.
    apply IH; [|lia]. intros (p & Hp & _)%truthy_inv.
    specialize (Hrank s c Hc). simpl in Hrank. rewrite Hp in Hrank.
    apply bool_decide_eq_true_1 in Hrank. rewrite Hp. simpl.
    specialize (Hlt eq_refl). simpl in Hlt.
    lia.
Qed.

(** On a ranked store the loop, given more fuel than the rank of its
    start, returns the chain of parent links or raises at the first id on
    the way that names no commit file. *)
Lemma history_loop_outcome rank w :
  ranked rank (store w) →
  ∀ n cur, (truthy cur = true → rank (py_str cur) < n) →
    (∃ l, history_loop n [] cur w = (Ok l, w)
          ∧ parent_chain (store w) cur l ∧ length l ≤ n)
    ∨ (∃ k, history_loop n [] cur w = (Raise (CommitNotFound k), w)
            ∧ links (store w) cur k ∧ store w !! k = None).
Proof.
  intros Hrank. induction n as [|n IH]; intros cur Hlt.
  - destruct (truthy cur) eqn:Ht; [specialize (Hlt eq_refl); lia|].
    left. exists []. rewrite history_loop_falsy by done.
    split_and!; [done | by constructor | done].
  - destruct (truthy cur) eqn:Ht.
    2: { left. exists []. rewrite history_loop_falsy by done.
         split_and!; [done | by constructor | simpl; lia]. }
    apply truthy_inv in Ht as (s & -> & Hs).
    destruct (store w !! s) as [c|] eqn:Hc.
    2: { right. exists s. rewrite history_loop_missing by done.
         split_and!; [done | by constructor | done]. }
    rewrite (history_loop_link _ _ s c) by done.
    rewrite history_loop_acc.
    destruct (IH (parent c)) as [(l & -> & Hch & Hlen)|(k & -> & Hk & Hnone)].
    + intros (p & Hp & _)%truthy_inv.
      specialize (Hrank s c Hc). simpl in Hrank. rewrite Hp in Hrank.
      apply bool_decide_eq_true_1 in Hrank. rewrite Hp. simpl.
      specialize (Hlt eq_refl). simpl in Hlt. lia.
    + left. exists (s :: l). split_and!; [done | by econstructor | simpl; lia].
    + right. exists k. split_and!; [done | by econstructor | done].
Qed.


(** *** The common ancestor *)

Lemma parent_chain_truthy cs cur l x : parent_chain cs cur l → x ∈ l → x ≠ "".
Proof.
  induction 1 as [v Hv | s c l Hs Hc Hl IH]; [by intros ?%elem_of_nil|].
  intros [->|Hx]%elem_of_cons; auto.
Qed.

Lemma first_common_Some hs ht x :
  first_common hs ht = Some x →
  ∃ l1 l2, hs = l1 ++ x :: l2 ∧ x ∈ ht ∧ ∀ y, y ∈ l1 → y ∉ ht.
Proof.
  induction hs as [|c hs IH]; simpl; [done|].
  case_bool_decide as Hc.
  - intros [= ->]. exists [], hs. split_and!; [done..|]. by intros y ?%elem_of_nil.
  - intros (l1 & l2 & -> & Hx & Hl1)%IH. exists (c :: l1), l2.
    split_and!; [done..|]. intros y [->|Hy]%elem_of_cons; auto.
Qed.

Lemma first_common_None hs ht :
  first_common hs ht = None → ∀ y, y ∈ hs → y ∉ ht.
Proof.
  induction hs as [|c hs IH]; simpl; [by intros _ y ?%elem_of_nil|].
  case_bool_decide as Hc; [done|].
  intros Hn y [->|Hy]%elem_of_cons; auto.
Qed.

Lemma first_common_is_Some hs ht y :
  y ∈ hs → y ∈ ht → is_Some (first_common hs ht).
Proof.
  intros Hs Ht. destruct (first_common hs ht) eqn:Hf; [done|].
  by destruct (first_common_None _ _ Hf y Hs).
Qed.

(** What [common_ancestor] does once both histories are there. *)
Lemma common_ancestor_run fuel a b w hs ht :
  fst (_get_commit_history fuel a w) = Ok hs →
  fst (_get_commit_history fuel b w) = Ok ht →
  common_ancestor fuel a b w
  = match first_common hs ht with
    | Some x => if bool_decide (x ≠ "") then (Ok x, w)
                else (Raise NoCommonAncestor, w)
    | None => (Raise NoCommonAncestor, w)
    end.
Proof.
  intros Ha Hb. unfold common_ancestor, _get_commit_history in *.
  pose proof (readonly_history_loop fuel [] a w) as Hwa.
  pose proof (readonly_history_loop fuel [] b w) as Hwb.
  unfold bind.
  destruct (history_loop fuel [] a w) as [oa wa]. simpl in *. subst.
  destruct (history_loop fuel [] b w) as [ob wb]. simpl in *. subst.
  destruct (first_common hs ht) as [x|]; simpl; [|done].
  by case_bool_decide.
Qed.

(** The search on the chains of two heads. *)
Lemma common_ancestor_search fuel a b w hs ht :
  parent_chain (store w) a hs →
  parent_chain (store w) b ht →
  length hs ≤ fuel →
  length ht ≤ fuel →
  _get_commit_history fuel a w = (Ok hs, w)
  ∧ _get_commit_history fuel b w = (Ok ht, w)
  ∧ ((∃ y, y ∈ hs ∧ y ∈ ht) →
     ∃ x l1 l2,
       common_ancestor fuel a b w = (Ok x, w)
       ∧ hs = l1 ++ x :: l2
       ∧ (∀ y, y ∈ l1 → y ∉ ht)
       ∧ x ∈ hs ∧ x ∈ ht
       ∧ ∀ y, y ∈ hs → y ∈ ht → ¬ newer hs y x ∧ ¬ newer ht y x)
  ∧ ((∀ y, y ∈ hs → y ∉ ht) →
     common_ancestor fuel a b w = (Raise NoCommonAncestor, w)).
Proof.
  intros Hca Hcb Hfa Hfb.
  assert (Ha : fst (_get_commit_history fuel a w) = Ok hs).
  { unfold _get_commit_history. by rewrite (parent_chain_history w a hs). }
  assert (Hb : fst (_get_commit_history fuel b w) = Ok ht).
  { unfold _get_commit_history. by rewrite (parent_chain_history w b ht). }
  pose proof (parent_chain_NoDup _ _ _ Hca) as Hnda.
  pose proof (parent_chain_NoDup _ _ _ Hcb) as Hndb.
  rewrite (common_ancestor_run fuel a b w hs ht Ha Hb).
  split_and!;
    [by apply (parent_chain_history w a hs)
    |by apply (parent_chain_history w b ht) | |].
  - intros (y0 & Hy0a & Hy0b).
    destruct (first_common_is_Some hs ht y0 Hy0a Hy0b) as [x Hx].
    rewrite Hx.
    destruct (first_common_Some _ _ _ Hx) as (l1 & l2 & Hhs & Hxt & Hl1).
    assert (x ∈ hs) as Hxs.
    { rewrite Hhs. apply elem_of_app. right. by left. }
    rewrite bool_decide_eq_true_2 by (by eapply parent_chain_truthy).
    exists x, l1, l2. split_and!; [done..|].
    intros y Hys Hyt.
    assert (hs !! length l1 = Some x) as Hix.
    { rewrite Hhs. by rewrite list_lookup_middle. }
    split.
    + intros (i & j & Hi & Hj & Hij).
      assert (j = length l1) as -> by exact (NoDup_lookup hs _ _ x Hnda Hj Hix).
      apply (Hl1 y); [|done].
      rewrite Hhs, lookup_app_l in Hi by done.
      by eapply list_elem_of_lookup_2.
    + intros (i & j & Hi & Hj & Hij).
      destruct (list_elem_of_split_length _ _ _ Hj) as (t1 & t2 & Hht & Hlen).
      assert (l2 = t2) as <-.
      { rewrite Hhs in Hca. rewrite Hht in Hcb.
        apply parent_chain_suffix in Hca, Hcb.
        pose proof (parent_chain_det _ _ _ _ Hca Hcb). congruence. }
      rewrite Hhs in Hys.
      apply elem_of_app in Hys as [Hys|Hys]; [by apply (Hl1 y)|].
      assert (∃ k, ht !! (j + k) = Some y) as [k Hk].
      { apply list_elem_of_lookup in Hys as [k Hk]. exists k.
        rewrite Hht, lookup_app_r by lia. by replace (j + k - length t1) with k by lia. }
      assert (i = j + k) by exact (NoDup_lookup ht _ _ y Hndb Hi Hk). lia.
  - intros Hnone. destruct (first_common hs ht) as [x|] eqn:Hx; [|done].
    destruct (first_common_Some _ _ _ Hx) as (l1 & l2 & Hhs & Hxt & Hl1).
    destruct (Hnone x); [|done]. rewrite Hhs. apply elem_of_app. right. by left.
Qed.

(** C4. Let the parent links lead from the two heads to the root along
    the chains [hs] and [ht], newest first.  With fuel for both, the two
    histories returned are these chains.  If the chains share a commit,
    the search returns the first id of the source chain that is also in the
    target chain; it lies in both chains, and no commit of both chains is
    strictly newer than it in either chain.  If they share none, the search
    raises "No common ancestor found" (NoCommonAncestorError). *)
Theorem common_ancestor_correct fuel a b w hs ht :
  parent_chain (store w) a hs →
  parent_chain (store w) b ht →
  length hs ≤ fuel →
  length ht ≤ fuel →
  _get_commit_history fuel a w = (Ok hs, w)
  ∧ _get_commit_history fuel b w = (Ok ht, w)
  ∧ ((∃ y, y ∈ hs ∧ y ∈ ht) →
     ∃ x l1 l2,
       common_ancestor fuel a b w = (Ok x, w)
       ∧ hs = l1 ++ x :: l2
       ∧ (∀ y, y ∈ l1 → y ∉ ht)
       ∧ x ∈ hs ∧ x ∈ ht
       ∧ ∀ y, y ∈ hs → y ∈ ht → ¬ newer hs y x ∧ ¬ newer ht y x)
  ∧ ((∀ y, y ∈ hs → y ∉ ht) →
     common_ancestor fuel a b w = (Raise NoCommonAncestor, w)).
Proof. apply common_ancestor_search. Qed.

(** *** Classification *)

Lemma differs_spec s t a : differs s t a = true ↔ s ≠ a ∧ t ≠ a ∧ s ≠ t.
Proof.
  unfold differs. rewrite !andb_true_iff, !bool_decide_eq_true. tauto.
Qed.

Lemma classify_fold_conflicts sf tf af l acc p :
  p ∈ conflicts (foldl (classify_step sf tf af) acc l)
  ↔ p ∈ conflicts acc
    ∨ (p ∈ l ∧ differs (change_of sf p) (change_of tf p) (change_of af p) = true).
Proof.
  revert acc. induction l as [|q l IH]; intros acc; simpl.
  - split; [auto|]. by intros [?|[?%elem_of_nil _]].
  - rewrite IH. unfold classify_step.
    destruct (differs (change_of sf q) _ _) eqn:Hq; simpl;
      rewrite ?elem_of_app, ?list_elem_of_singleton, elem_of_cons;
      intuition (subst; auto; congruence).
Qed.

Lemma classify_fold_merged sf tf af l acc p :
  p ∈ merged (foldl (classify_step sf tf af) acc l)
  ↔ p ∈ merged acc
    ∨ (p ∈ l ∧ differs (change_of sf p) (change_of tf p) (change_of af p) = false).
Proof.
  revert acc. induction l as [|q l IH]; intros acc; simpl.
  - split; [auto|]. by intros [?|[?%elem_of_nil _]].
  - rewrite IH. unfold classify_step.
    destruct (differs (change_of sf q) _ _) eqn:Hq; simpl;
      rewrite ?elem_of_app, ?list_elem_of_singleton, elem_of_cons;
      intuition (subst; auto; congruence).
Qed.

(** The loop of [merge_branch] on three tables of changes. *)
Lemma classify_spec sf tf af p :
  let s := change_of sf p in
  let t := change_of tf p in
  let a := change_of af p in
  (p ∈ conflicts (classify sf tf af)
   ↔ p ∈ dom sf ∪ dom tf ∧ (s ≠ a ∧ t ≠ a ∧ s ≠ t))
  ∧ (p ∈ merged (classify sf tf af)
     ↔ p ∈ dom sf ∪ dom tf ∧ ¬ (s ≠ a ∧ t ≠ a ∧ s ≠ t)).
Proof.
  intros s t a. unfold classify.
  rewrite classify_fold_conflicts, classify_fold_merged, elem_of_elements.
  fold s t a. rewrite <- differs_spec. simpl.
  rewrite !elem_of_nil.
  destruct (differs s t a); intuition congruence.
Qed.

Lemma store_repo w r : repo w = Some r → store w = commits r.
Proof. unfold store. by intros ->. Qed.

Lemma parent_chain_stored cs cur l x :
  parent_chain cs cur l → x ∈ l → is_Some (cs !! x).
Proof.
  induction 1 as [v Hv | s c l Hs Hc Hl IH]; [by intros ?%elem_of_nil|].
  intros [->|Hx]%elem_of_cons; eauto.
Qed.

(** C1. Take a merge of an existing source branch into a different
    current branch on a clean tree, where [S] and [T] are the commits at the
    two heads and the parent links lead from both heads to the root along
    chains that share a commit.  With fuel for both chains, [merge_branch]
    returns.  The common ancestor is the first id of the source chain that
    is on the target chain too; with [B] the commit it names, a path is
    listed as a conflict exactly when it is in the changes of [S] or of [T]
    and its digest (the ['hash'] of its entry) at [S] differs from that at
    [B], its digest at [T] differs from that at [B], and the two differ
    from each other (no digest where the path is absent); it is listed as
    merged exactly when it is in the changes of [S] or of [T] and is no
    conflict. *)
Theorem merge_classification fuel branch_name w r cur source_head target_head
    S T hs ht :
  repo w = Some r →
  clean w →
  branches r !! branch_name = Some source_head →
  branches r !! "current" = Some (Some cur) →
  cur ≠ branch_name →
  branches r !! cur = Some target_head →
  commits r !! py_str source_head = Some S →
  commits r !! py_str target_head = Some T →
  parent_chain (commits r) source_head hs →
  parent_chain (commits r) target_head ht →
  (∃ y, y ∈ hs ∧ y ∈ ht) →
  length hs ≤ fuel →
  length ht ≤ fuel →
  ∃ result ancestor B pre post,
    merge_branch fuel branch_name w = (Ok result, w)
    ∧ common_ancestor fuel source_head target_head w = (Ok ancestor, w)
    ∧ hs = pre ++ ancestor :: post
    ∧ (∀ y, y ∈ pre → y ∉ ht)
    ∧ ancestor ∈ ht
    ∧ commits r !! ancestor = Some B
    ∧ ∀ p,
        let s := hash <$> (changes S !! p) in
        let t := hash <$> (changes T !! p) in
        let a := hash <$> (changes B !! p) in
        (p ∈ conflicts result
         ↔ p ∈ dom (changes S) ∪ dom (changes T) ∧ (s ≠ a ∧ t ≠ a ∧ s ≠ t))
        ∧ (p ∈ merged result
           ↔ p ∈ dom (changes S) ∪ dom (changes T)
             ∧ ¬ (s ≠ a ∧ t ≠ a ∧ s ≠ t)).
Proof.
  intros Hr (status & Hst & Hd) Hsrc Hcur Hne Htgt HS HT Hcs Hct Hshare Hfs Hft.
  rewrite <- (store_repo w r Hr) in Hcs, Hct.
  destruct (common_ancestor_search fuel source_head target_head w hs ht
              Hcs Hct Hfs Hft) as (_ & _ & Hfound & _).
  destruct (Hfound Hshare)
    as (ancestor & l1 & l2 & Hanc & Hsplit & Hnew & Hin & Hint & _).
  destruct (parent_chain_stored _ _ _ ancestor Hcs Hin) as [B HB].
  rewrite (store_repo w r Hr) in HB.
  exists (classify (changes S) (changes T) (changes B)), ancestor, B, l1, l2.
  split_and!; [|done|done|done|done|done
              |intros p; exact (classify_spec (changes S) (changes T) (changes B) p)].
  unfold merge_branch. unfold_prims.
  rewrite (initialized_true _ _ Hr); simpl; rewrite Hr; simpl.
  rewrite bool_decide_eq_false_2 by congruence. simpl.
  rewrite Hcur. simpl. rewrite bool_decide_eq_false_2 by congruence. simpl.
  rewrite (get_status_pair _ _ Hst). rewrite Hd. simpl. rewrite Hsrc. simpl.
  rewrite Hr. simpl. rewrite HS, Htgt. simpl. rewrite Hr. simpl. rewrite HT.
  rewrite Hanc. rewrite Hr. simpl. by rewrite HB.
Qed.

(** Conversely, a call of [merge_branch] that returns was made on a clean
    tree with an existing source branch other than the current one, both
    heads and the common ancestor resolve, and the lists returned are the
    classification of the paths of the two heads. *)
Lemma merge_ok_classified fuel branch_name w result :
  fst (merge_branch fuel branch_name w) = Ok result →
  ∃ r cur source_head target_head S T ancestor B,
    repo w = Some r
    ∧ clean w
    ∧ branches r !! branch_name = Some source_head
    ∧ branches r !! "current" = Some (Some cur)
    ∧ cur ≠ branch_name
    ∧ branches r !! cur = Some target_head
    ∧ commits r !! py_str source_head = Some S
    ∧ commits r !! py_str target_head = Some T
    ∧ fst (common_ancestor fuel source_head target_head w) = Ok ancestor
    ∧ commits r !! ancestor = Some B
    ∧ result = classify (changes S) (changes T) (changes B).
Proof.
  intros Hm.
  destruct (merge_ok_inv _ _ _ _ Hm)
    as (r & cur' & Hr & [source_head Hsrc] & Hcur & Hne & Hclean).
  pose proof Hclean as (status & Hst & Hd).
  revert Hm. unfold merge_branch. unfold_prims.
  rewrite (initialized_true _ _ Hr); simpl; rewrite Hr; simpl.
  rewrite bool_decide_eq_false_2 by congruence. simpl.
  rewrite Hcur. simpl. rewrite bool_decide_eq_false_2 by congruence. simpl.
  rewrite (get_status_pair _ _ Hst). rewrite Hd. simpl. rewrite Hsrc. simpl.
  rewrite Hr. simpl.
  destruct (commits r !! py_str source_head) as [S|] eqn:HS; [|done].
  destruct cur' as [cur|]; [|done].
  destruct (branches r !! cur) as [target_head|] eqn:Htgt; [|done]. simpl.
  rewrite Hr. simpl.
  destruct (commits r !! py_str target_head) as [T|] eqn:HT; [|done].
  pose proof (readonly_common_ancestor fuel source_head target_head w) as Hw.
  destruct (common_ancestor fuel source_head target_head w)
    as [[ancestor| |] w'] eqn:Hanc; simpl in Hw; subst w'; try done.
  rewrite Hr. simpl.
  destruct (commits r !! ancestor) as [B|] eqn:HB; [|done].
  simpl. intros [= <-].
  exists r, cur, source_head, target_head, S, T, ancestor, B.
  split_and!; try done; try congruence.
  by rewrite Hanc.
Qed.

(** *** Reachable states *)

Ltac op_start Hr :=
  unfold_prims; rewrite (initialized_true _ _ Hr); simpl; rewrite ?Hr; simpl.

Ltac op_none Hr :=
  unfold_prims; rewrite Hr;
  rewrite bool_decide_eq_false_2 by (by intros [? ?]); simpl.

(** Without [.repo/] only [init] does anything. *)
Lemma exec_uninitialized o w : repo w = None → o ≠ OInit → exec o w = w.
Proof.
  intros Hr Ho. destruct o; simpl; try done.
  - unfold stage_file. by op_none Hr.
  - unfold commit. by op_none Hr.
  - unfold create_branch. by op_none Hr.
  - unfold switch_branch. by op_none Hr.
  - apply readonly_merge_branch.
  - unfold list_branches. by op_none Hr.
  - unfold get_current_branch. by op_none Hr.
Qed.

Lemma exec_init w :
  repo w = None →
  repo (exec OInit w)
  = Some (mkRepo ∅ (<["current" := Some "main"]> (<["main" := None]> ∅)) ∅).
Proof. intros Hr. simpl. unfold init. by rewrite Hr. Qed.

(** With [.repo/], a call leaves the branch table or sets one key of it. *)
Lemma exec_initialized o w r :
  repo w = Some r →
  ∃ r', repo (exec o w) = Some r'
    ∧ (branches r' = branches r ∨ ∃ k v, branches r' = <[k := v]> (branches r)).
Proof.
  intros Hr. destruct o; simpl.
  - unfold init. rewrite Hr. simpl. eauto.
  - unfold stage_file. op_start Hr.
    destruct (tree w !! file_path) as [[content|]|]; simpl; eauto.
    destruct (is_ignored (tree w) file_path); simpl; eauto.
    rewrite Hr. simpl. rewrite Hr. simpl. eauto.
  - unfold commit. op_start Hr.
    case_bool_decide; simpl; eauto. rewrite Hr. simpl.
    destruct (branches r !! "current") as [[cur|]|]; simpl; eauto.
    destruct (branches r !! cur) as [head|]; simpl; eauto.
    rewrite Hr. simpl. eauto 6.
  - unfold create_branch. op_start Hr.
    case_bool_decide; simpl; eauto.
    destruct (branches r !! "current") as [[cur|]|]; simpl; eauto.
    destruct (branches r !! cur) as [head|]; simpl; eauto.
    rewrite Hr. simpl. eauto 6.
  - unfold switch_branch. op_start Hr.
    case_bool_decide; simpl; eauto.
    destruct (get_status_initialized w r Hr) as [status ->].
    destruct (dirty status); simpl; eauto.
    rewrite Hr. simpl. eauto 6.
  - rewrite readonly_merge_branch. eauto.
  - unfold list_branches. op_start Hr. eauto.
  - unfold get_current_branch. op_start Hr.
    destruct (branches r !! "current"); simpl; eauto.
Qed.

(** The branch table of a reachable state has the key ["current"]. *)
Lemma step_has_current w w' :
  step w w' →
  (∀ r, repo w = Some r → is_Some (branches r !! "current")) →
  ∀ r', repo w' = Some r' → is_Some (branches r' !! "current").
Proof.
  intros Hstep Hinv r' Hr'. destruct Hstep as [o w | t w]; [|by apply Hinv].
  destruct (repo w) as [r|] eqn:Hr.
  - destruct (exec_initialized o w r Hr) as (r'' & Hr'' & Hb).
    assert (r'' = r') as -> by congruence.
    specialize (Hinv r eq_refl).
    destruct Hb as [-> | (k & v & ->)]; [done|].
    by apply lookup_insert_is_Some'; right.
  - assert (o = OInit ∨ o ≠ OInit) as [->|Ho] by (destruct o; auto).
    + rewrite (exec_init w Hr) in Hr'. injection Hr' as <-. simpl.
      by rewrite lookup_insert_eq.
    + rewrite (exec_uninitialized o w Hr Ho) in Hr'. congruence.
Qed.

Lemma reachable_call o w : reachable w → reachable (exec o w).
Proof.
  intros (w0 & Hr0 & Hsteps). exists w0. split; [done|].
  eapply rtc_r; [done|]. apply step_call.
Qed.

Lemma reachable_edit t w : reachable w → reachable (mkWorld t (repo w)).
Proof.
  intros (w0 & Hr0 & Hsteps). exists w0. split; [done|].
  eapply rtc_r; [done|]. apply step_edit.
Qed.

Lemma reachable_has_current w :
  reachable w → ∀ r, repo w = Some r → is_Some (branches r !! "current").
Proof.
  intros (w0 & Hr0 & Hsteps). revert w Hsteps.
  apply (rtc_ind_r (λ w, ∀ r, repo w = Some r → is_Some (branches r !! "current"))).
  - congruence.
  - intros w1 w2 _ Hstep IH. by apply (step_has_current w1 w2).
Qed.

(** *** The reserved key *)

Lemma branch_names_current brs : "current" ∉ branch_names brs.
Proof.
  unfold branch_names. intros [v Hv]%elem_of_dom.
  by apply map_lookup_filter_Some in Hv as [_ ?].
Qed.

Lemma create_branch_current w r :
  repo w = Some r → is_Some (branches r !! "current") →
  create_branch "current" w = (Raise (BranchExists "current"), w).
Proof.
  intros Hr Hcur. unfold create_branch. op_start Hr.
  by rewrite bool_decide_eq_true_2.
Qed.

Lemma list_branches_run w r :
  repo w = Some r →
  list_branches w = (Ok (filter (λ kv, fst kv ≠ "current") (branches r)), w).
Proof. intros Hr. unfold list_branches. by op_start Hr. Qed.

(** C9. In every state the interface can reach, a call of [create_branch]
    with the name ["current"] does not succeed: on an initialized
    repository it raises "Branch already exists" (BranchExistsError) and
    changes nothing, although ["current"] is not one of the branches and
    [list_branches] never reports it. *)
Theorem create_branch_current_reserved w :
  reachable w →
  (∀ r, repo w = Some r →
     create_branch "current" w = (Raise (BranchExists "current"), w)
     ∧ "current" ∉ branch_names (branches r))
  ∧ fst (create_branch "current" w) ≠ Ok tt
  ∧ (∀ brs, fst (list_branches w) = Ok brs → brs !! "current" = None).
Proof.
  intros Hreach. split_and!.
  - intros r Hr. split; [|apply branch_names_current].
    apply (create_branch_current w r Hr). by apply (reachable_has_current w).
  - destruct (repo w) as [r|] eqn:Hr.
    + rewrite (create_branch_current w r Hr); [done|].
      by apply (reachable_has_current w).
    + unfold create_branch. by op_none Hr.
  - intros brs. destruct (repo w) as [r|] eqn:Hr.
    + rewrite (list_branches_run w r Hr). simpl. intros [= <-].
      apply map_lookup_filter_None. right. intros v _ Hne. by apply Hne.
    + unfold list_branches. by op_none Hr.
Qed.

(** *** switch_branch and the current pointer *)

Lemma switch_branch_run branch_name w r :
  repo w = Some r → is_Some (branches r !! branch_name) → clean w →
  switch_branch branch_name w
  = (Ok tt, mkWorld (tree w)
              (Some (mkRepo (staging r)
                            (<["current" := Some branch_name]> (branches r))
                            (commits r)))).
Proof.
  intros Hr [v Hb] (status & Hst & Hd). unfold switch_branch. op_start Hr.
  rewrite bool_decide_eq_false_2 by congruence. simpl.
  rewrite (get_status_pair _ _ Hst). rewrite Hd. simpl. by rewrite Hr.
Qed.

Lemma get_current_branch_run w r cur :
  repo w = Some r → branches r !! "current" = Some cur →
  get_current_branch w = (Ok cur, w).
Proof. intros Hr Hcur. unfold get_current_branch. op_start Hr. by rewrite Hcur. Qed.

(** On a repository just initialized in any working tree, where the
    current entry names the branch [main], [switch_branch "current"] passes
    its existence check on the reserved key, returns, and leaves a
    reachable state whose current entry names ["current"], which is none of
    the branches [list_branches] reports. *)
Lemma switch_to_reserved_key t :
  let w1 := exec OInit (mkWorld t None) in
  let w2 := exec (OSwitch "current") w1 in
  reachable w1
  ∧ reachable w2
  ∧ (∃ r1, repo w1 = Some r1 ∧ current_ok (branches r1) = true)
  ∧ fst (switch_branch "current" w1) = Ok tt
  ∧ ∃ r2, repo w2 = Some r2
      ∧ branches r2 !! "current" = Some (Some "current")
      ∧ fst (get_current_branch w2) = Ok (Some "current")
      ∧ fst (list_branches w2) = Ok (<["main" := None]> ∅)
      ∧ current_ok (branches r2) = false
      ∧ "current" ∉ branch_names (branches r2).
Proof.
  intros w1 w2.
  set (r1 := mkRepo ∅ (<["current" := Some "main"]> (<["main" := None]> ∅)) ∅).
  assert (repo w1 = Some r1) as Hr1 by (by apply exec_init).
  assert (reachable w1) as Hreach1.
  { exists (mkWorld t None). split; [done|]. apply rtc_once, step_call. }
  set (r2 := mkRepo ∅ (<["current" := Some "current"]> (branches r1)) ∅).
  assert (Hsw : switch_branch "current" w1 = (Ok tt, mkWorld (tree w1) (Some r2))).
  { apply (switch_branch_run "current" w1 r1 Hr1); [done|].
    by apply (clean_empty_staging w1 r1). }
  assert (Hr2 : repo w2 = Some r2).
  { unfold w2. simpl. by rewrite Hsw. }
  split_and!.
  - done.
  - by apply reachable_call.
  - exists r1. split; [done|]. by vm_compute.
  - by rewrite Hsw.
  - eexists. split; [done|]. split_and!.
    + done.
    + by rewrite (get_current_branch_run w2 _ (Some "current") Hr2).
    + rewrite (list_branches_run w2 _ Hr2). by vm_compute.
    + by vm_compute.
    + apply branch_names_current.
Qed.

End Properties.

(** * The worked history, checked *)

Section Checks.

Import Scenario.

#[local] Existing Instance env.

(** On the store whose commit is its own parent the loop uses up any fuel. *)
Lemma history_loop_looped fuel acc :
  history_loop fuel acc (Some "c1") Scenario.looped = (Diverge, Scenario.looped).
Proof.
  revert acc. induction fuel as [|n IH]; intros acc; [done|].
  rewrite (history_loop_link _ _ "c1" (mkCommit "loop" "eve" "t0" (Some "c1") ∅))
    by done.
  apply IH.
Qed.



Lemma reachable_fresh : reachable fresh.
Proof. exists empty. split; [done|]. apply rtc_once, step_call. Qed.

(** C7 at the repository just initialized. *)
Lemma commit_empty_staging_witness :
  repo fresh = Some (the_repo fresh)
  ∧ staging (the_repo fresh) = ∅
  ∧ commit "first" None "t1" None fresh = (Raise NoChangesStaged, fresh).
Proof.
  split_and!; [reflexivity | reflexivity |].
  apply (commit_empty_staging "first" None "t1" None fresh (the_repo fresh));
    reflexivity.
Defined.

(** C6 at the repository with [f.txt] staged. *)
Lemma commit_roundtrip_witness :
  repo staged_one = Some (the_repo staged_one)
  ∧ staging (the_repo staged_one) ≠ ∅
  ∧ current_ok (branches (the_repo staged_one)) = true
  ∧ ∃ cur head c rec w' r',
      branches (the_repo staged_one) !! "current" = Some (Some cur)
      ∧ branches (the_repo staged_one) !! cur = Some head
      ∧ commit "first" (Some "ann") "t2" None staged_one = (Ok c, w')
      ∧ get_commit (Some c) w' = (Ok rec, w')
      ∧ changes rec = staging (the_repo staged_one)
      ∧ parent rec = head
      ∧ c = sha256 (json_dumps rec)
      ∧ repo w' = Some r'
      ∧ tree w' = tree staged_one
      ∧ staging r' = ∅
      ∧ commits r' = <[c := rec]> (commits (the_repo staged_one))
      ∧ branches r' = <[cur := Some c]> (branches (the_repo staged_one))
      ∧ branches r' !! "current" = Some (Some cur)
      ∧ branches r' !! cur = Some (Some c).
Proof.
  assert (Hne : staging (the_repo staged_one) ≠ ∅).
  { intros Heq. apply (f_equal (λ m, m !! "f.txt")) in Heq. by vm_compute in Heq. }
  split_and!; [reflexivity | exact Hne | reflexivity |].
  apply (commit_roundtrip "first" (Some "ann") "t2" None staged_one
           (the_repo staged_one) eq_refl Hne eq_refl).
Defined.

(** The two chains of the fork. *)
Lemma parent_chain_id2 : parent_chain (store forked) (Some id2) [id2; id1].
Proof.
  apply (history_parent_chain 5 (Some id2) forked). reflexivity.
Qed.

Lemma parent_chain_id3 : parent_chain (store forked) (Some id3) [id3; id1].
Proof.
  apply (history_parent_chain 5 (Some id3) forked). reflexivity.
Qed.

(** C1 at the fork: [f.txt] changed on both branches, differently. *)
Lemma merge_classification_witness :
  ∃ S T hs ht,
    repo forked = Some (the_repo forked)
    ∧ clean forked
    ∧ branches (the_repo forked) !! "dev" = Some (Some id2)
    ∧ branches (the_repo forked) !! "current" = Some (Some "main")
    ∧ "main" ≠ "dev"
    ∧ branches (the_repo forked) !! "main" = Some (Some id3)
    ∧ commits (the_repo forked) !! id2 = Some S
    ∧ commits (the_repo forked) !! id3 = Some T
    ∧ parent_chain (commits (the_repo forked)) (Some id2) hs
    ∧ parent_chain (commits (the_repo forked)) (Some id3) ht
    ∧ (∃ y, y ∈ hs ∧ y ∈ ht)
    ∧ length hs ≤ 5
    ∧ length ht ≤ 5
    ∧ merge_branch 5 "dev" forked = (Ok (mkMergeResult ["f.txt"] []), forked)
    ∧ ∃ result ancestor B pre post,
        merge_branch 5 "dev" forked = (Ok result, forked)
        ∧ common_ancestor 5 (Some id2) (Some id3) forked = (Ok ancestor, forked)
        ∧ hs = pre ++ ancestor :: post
        ∧ (∀ y, y ∈ pre → y ∉ ht)
        ∧ ancestor ∈ ht
        ∧ commits (the_repo forked) !! ancestor = Some B
        ∧ ∀ p,
            let s := hash <$> (changes S !! p) in
            let t := hash <$> (changes T !! p) in
            let a := hash <$> (changes B !! p) in
            (p ∈ conflicts result
             ↔ p ∈ dom (changes S) ∪ dom (changes T) ∧ (s ≠ a ∧ t ≠ a ∧ s ≠ t))
            ∧ (p ∈ merged result
               ↔ p ∈ dom (changes S) ∪ dom (changes T)
                 ∧ ¬ (s ≠ a ∧ t ≠ a ∧ s ≠ t)).
Proof.
  set (S := mkCommit "second" "bob" "t4" (Some id1)
              (<["f.txt" := mkEntry "sha:two" "t3"]> ∅)).
  set (T := mkCommit "third" "unknown" "t6" (Some id1)
              (<["f.txt" := mkEntry "sha:three" "t5"]> ∅)).
  assert (Hclean : clean forked).
  { exists (mkStatus [] [] [".svcignore"; "f.txt"]). split; reflexivity. }
  assert (Hshare : ∃ y, y ∈ [id2; id1] ∧ y ∈ [id3; id1]).
  { exists id1. split; apply list_elem_of_In; simpl; auto. }
  assert (H2 : length [id2; id1] ≤ 5) by (simpl; lia).
  assert (H3 : length [id3; id1] ≤ 5) by (simpl; lia).
  assert (Hne : "main" ≠ "dev") by discriminate.
  exists S, T, [id2; id1], [id3; id1].
  split_and!; [reflexivity | exact Hclean | reflexivity | reflexivity
              | exact Hne | reflexivity | reflexivity | reflexivity
              | exact parent_chain_id2 | exact parent_chain_id3 | exact Hshare
              | exact H2 | exact H3 | reflexivity |].
  exact (merge_classification 5 "dev" forked (the_repo forked) "main"
           (Some id2) (Some id3) S T [id2; id1] [id3; id1]
           eq_refl Hclean eq_refl eq_refl Hne eq_refl eq_refl eq_refl
           parent_chain_id2 parent_chain_id3 Hshare H2 H3).
Defined.


(** C4 at the fork: the two chains meet in the first commit. *)
Lemma common_ancestor_correct_witness :
  parent_chain (store forked) (Some id2) [id2; id1]
  ∧ parent_chain (store forked) (Some id3) [id3; id1]
  ∧ length [id2; id1] ≤ 5
  ∧ length [id3; id1] ≤ 5
  ∧ _get_commit_history 5 (Some id2) forked = (Ok [id2; id1], forked)
  ∧ _get_commit_history 5 (Some id3) forked = (Ok [id3; id1], forked)
  ∧ ((∃ y, y ∈ [id2; id1] ∧ y ∈ [id3; id1]) →
     ∃ x l1 l2,
       common_ancestor 5 (Some id2) (Some id3) forked = (Ok x, forked)
       ∧ [id2; id1] = l1 ++ x :: l2
       ∧ (∀ y, y ∈ l1 → y ∉ [id3; id1])
       ∧ x ∈ [id2; id1] ∧ x ∈ [id3; id1]
       ∧ ∀ y, y ∈ [id2; id1] → y ∈ [id3; id1] →
           ¬ newer [id2; id1] y x ∧ ¬ newer [id3; id1] y x)
  ∧ ((∀ y, y ∈ [id2; id1] → y ∉ [id3; id1]) →
     common_ancestor 5 (Some id2) (Some id3) forked
     = (Raise NoCommonAncestor, forked)).
Proof.
  assert (H2 : length [id2; id1] ≤ 5) by (simpl; lia).
  assert (H3 : length [id3; id1] ≤ 5) by (simpl; lia).
  split; [exact parent_chain_id2|]. split; [exact parent_chain_id3|].
  split; [exact H2|]. split; [exact H3|].
  exact (common_ancestor_correct 5 (Some id2) (Some id3) forked
           [id2; id1] [id3; id1] parent_chain_id2 parent_chain_id3 H2 H3).
Defined.


(** The existence check of [merge_branch] is a lookup in the branch table,
    which the reserved key passes: the call goes on to resolve the name of
    the current branch as a commit id. *)
Lemma merge_reserved_key :
  merge_branch 5 "current" fresh = (Raise (CommitNotFound "main"), fresh).
Proof. reflexivity. Qed.


(** C6, refuted as stated: the repository is initialized and a file is
    staged, in a state the interface reaches, and [commit] raises a
    [KeyError]: the current entry, left by [switch_branch("current")] and
    the commit after it, names no key of the branch table. *)
Lemma commit_on_broken_pointer :
  reachable astray_staged
  ∧ repo astray_staged = Some (the_repo astray_staged)
  ∧ staging (the_repo astray_staged) ≠ ∅
  ∧ current_ok (branches (the_repo astray_staged)) = false
  ∧ commit "second" None "t4" None astray_staged
    = (Raise (KeyError (Some "sha:first<current")), astray_staged)
  ∧ ¬ ∃ c, fst (commit "second" None "t4" None astray_staged) = Ok c.
Proof.
  split.
  { apply reachable_call, (reachable_edit _ astray_commit).
    apply reachable_call, reachable_call, (reachable_edit _ astray).
    apply reachable_call, reachable_fresh. }
  split; [reflexivity|]. split.
  { intros Heq. apply (f_equal (λ m, m !! "f.txt")) in Heq.
    by vm_compute in Heq. }
  split; [reflexivity|]. split; [reflexivity|].
  intros [c Hc]. vm_compute in Hc. discriminate Hc.
Qed.

(** C9 at the repository just initialized. *)
Lemma create_branch_current_reserved_witness :
  reachable fresh
  ∧ (∀ r, repo fresh = Some r →
       create_branch "current" fresh = (Raise (BranchExists "current"), fresh)
       ∧ "current" ∉ branch_names (branches r))
  ∧ fst (create_branch "current" fresh) ≠ Ok tt
  ∧ (∀ brs, fst (list_branches fresh) = Ok brs → brs !! "current" = None).
Proof.
  split; [exact reachable_fresh|].
  apply (create_branch_current_reserved fresh reachable_fresh).
Defined.

(** C10 (as amended) at two branches without a commit, on a clean tree. *)
Lemma merge_null_head_witness :
  repo unborn = Some (the_repo unborn)
  ∧ branches (the_repo unborn) !! "dev" = Some None
  ∧ branches (the_repo unborn) !! "current" = Some (Some "main")
  ∧ "main" ≠ "dev"
  ∧ branches (the_repo unborn) !! "main" = Some None
  ∧ clean unborn
  ∧ commits (the_repo unborn) !! "None" = None
  ∧ ∃ h, merge_branch 5 "dev" unborn = (Raise (CommitNotFound h), unborn)
         ∧ (@None string = None → h = "None").
Proof.
  assert (Hclean : clean unborn).
  { exists (mkStatus [] [] [".svcignore"]). split; reflexivity. }
  split_and!; [reflexivity | reflexivity | reflexivity | discriminate
              | reflexivity | exact Hclean | reflexivity |].
  apply (merge_null_head 5 "dev" unborn (the_repo unborn) "main" None None);
    [reflexivity | reflexivity | reflexivity | discriminate | reflexivity
    | by left | exact Hclean | reflexivity].
Defined.

(** C10, refuted as stated: the repository is initialized, the source
    branch [dev] exists, is not the current branch and has a null head, as
    has the current branch; a file is staged, and [merge_branch] raises
    "Cannot merge with uncommitted changes", not "Commit not found". *)
Lemma merge_null_head_dirty :
  repo unborn_dirty = Some (the_repo unborn_dirty)
  ∧ branches (the_repo unborn_dirty) !! "dev" = Some None
  ∧ branches (the_repo unborn_dirty) !! "current" = Some (Some "main")
  ∧ branches (the_repo unborn_dirty) !! "main" = Some None
  ∧ merge_branch 5 "dev" unborn_dirty = (Raise UncommittedMerge, unborn_dirty)
  ∧ ¬ ∃ h, fst (merge_branch 5 "dev" unborn_dirty) = Raise (CommitNotFound h).
Proof.
  split_and!; try reflexivity.
  intros [h Hh]. vm_compute in Hh. discriminate Hh.
Qed.

(** With a commit file named [None.json] in the store, null heads
    resolve, both histories are empty, and the merge ends in "No common
    ancestor found". *)
Lemma merge_null_head_planted :
  branches (the_repo planted) !! "dev" = Some None
  ∧ branches (the_repo planted) !! "main" = Some None
  ∧ clean planted
  ∧ merge_branch 5 "dev" planted = (Raise NoCommonAncestor, planted).
Proof.
  split_and!; try reflexivity.
  exists (mkStatus [] [] []). split; reflexivity.
Qed.

(** C2, at the input where it fails.  [init], then
    [switch_branch "current"]: the call returns, and in the state reached
    the current entry names ["current"], which is none of the branches
    [list_branches] reports.  A file staged and committed from there stores
    the commit id under the reserved key: the current entry then names no
    key of the branch table at all, and the next commit raises [KeyError]
    although a file is staged. *)
Theorem current_pointer_broken :
  reachable fresh
  ∧ current_ok (branches (the_repo fresh)) = true
  ∧ switch_branch "current" fresh = (Ok tt, astray)
  ∧ reachable astray
  ∧ fst (get_current_branch astray) = Ok (Some "current")
  ∧ fst (list_branches astray) = Ok (<["main" := None]> ∅)
  ∧ current_ok (branches (the_repo astray)) = false
  ∧ reachable astray_staged
  ∧ branches (the_repo astray_commit)
    = <["current" := Some "sha:first<current"]> (<["main" := None]> ∅)
  ∧ fst (get_current_branch astray_commit) = Ok (Some "sha:first<current")
  ∧ branches (the_repo astray_commit) !! "sha:first<current" = None
  ∧ current_ok (branches (the_repo astray_commit)) = false
  ∧ staging (the_repo astray_staged) ≠ ∅
  ∧ fst (commit "second" None "t4" None astray_staged)
    = Raise (KeyError (Some "sha:first<current")).
Proof.
  assert (Hastray : reachable astray) by apply reachable_call, reachable_fresh.
  split_and!; try reflexivity.
  - exact reachable_fresh.
  - exact Hastray.
  - apply reachable_call, (reachable_edit _ astray_commit).
    apply reachable_call, reachable_call, (reachable_edit _ astray).
    exact Hastray.
  - intros Heq. apply (f_equal (λ m, m !! "f.txt")) in Heq. by vm_compute in Heq.
Qed.

End Checks.

(** * Further properties *)

Ltac run_init Hr :=
  unfold_prims; rewrite (initialized_true _ _ Hr); simpl; rewrite ?Hr; simpl.

Ltac run_none Hr :=
  unfold_prims; rewrite Hr;
  rewrite bool_decide_eq_false_2 by (by intros [? ?]); simpl.

Section Status.

Context `{Collaborators}.

(** *** get_status *)

Lemma get_status_run w r :
  repo w = Some r →
  get_status w
  = (Ok (foldl (status_step (tree w) (staging r)) (mkStatus [] [] [])
               (map_to_list (tree w))), w).
Proof. intros Hr. unfold get_status. by run_init Hr. Qed.

Ltac split_cases :=
  repeat match goal with
         | Hx : ∃ _, _ |- _ => destruct Hx as (? & Hx)
         | Hx : _ ∧ _ |- _ => destruct Hx as [? ?]
         | Hx : _ ∨ _ |- _ => destruct Hx as [Hx|Hx]
         | Hx : (_, _) = (_, _) |- _ => injection Hx as -> ->
         end.

Ltac status_fold_step IH t q node stg :=
  rewrite IH; clear IH; setoid_rewrite elem_of_cons;
  let Hig := fresh "Hig" in
  let Hq := fresh "Hq" in
  let Hh := fresh "Hh" in
  destruct (is_ignored t q) eqn:Hig; [|destruct node as [?|]];
    [| destruct (stg !! q) as [?|] eqn:Hq; [case_bool_decide as Hh|] |];
    simpl; rewrite ?elem_of_app, ?list_elem_of_singleton;
    split; intros ?; split_cases; simplify_eq; eauto 10; try congruence.

(** The three lists after the loop over some paths of the tree. *)
Lemma status_fold_staged t stg l acc p :
  p ∈ staged (foldl (status_step t stg) acc l)
  ↔ p ∈ staged acc
    ∨ ∃ content e, (p, NFile content) ∈ l ∧ is_ignored t p = false
        ∧ stg !! p = Some e ∧ sha256 content = hash e.
Proof.
  revert acc. induction l as [|[q node] l IH]; intros acc; simpl.
  - split; [auto|]. intros [?|(c & e & []%elem_of_nil & _)]. done.
  - status_fold_step IH t q node stg.
Qed.

Lemma status_fold_modified t stg l acc p :
  p ∈ modified (foldl (status_step t stg) acc l)
  ↔ p ∈ modified acc
    ∨ ∃ content e, (p, NFile content) ∈ l ∧ is_ignored t p = false
        ∧ stg !! p = Some e ∧ sha256 content ≠ hash e.
Proof.
  revert acc. induction l as [|[q node] l IH]; intros acc; simpl.
  - split; [auto|]. intros [?|(c & e & []%elem_of_nil & _)]. done.
  - status_fold_step IH t q node stg.
Qed.

Lemma status_fold_untracked t stg l acc p :
  p ∈ untracked (foldl (status_step t stg) acc l)
  ↔ p ∈ untracked acc
    ∨ ∃ content, (p, NFile content) ∈ l ∧ is_ignored t p = false
        ∧ stg !! p = None.
Proof.
  revert acc. induction l as [|[q node] l IH]; intros acc; simpl.
  - split; [auto|]. intros [?|(c & []%elem_of_nil & _)]. done.
  - status_fold_step IH t q node stg.
Qed.

(** Every path listed was one of the paths looped over. *)
Lemma status_fold_keys t stg l acc p :
  p ∈ staged (foldl (status_step t stg) acc l)
      ++ modified (foldl (status_step t stg) acc l)
      ++ untracked (foldl (status_step t stg) acc l) →
  p ∈ staged acc ++ modified acc ++ untracked acc ∨ p ∈ l.*1.
Proof.
  rewrite !elem_of_app, status_fold_staged, status_fold_modified,
    status_fold_untracked.
  intros Hp. split_cases; auto;
    right; apply list_elem_of_fmap; by eexists (_, _).
Qed.

(** No path is listed twice, in one list or in two. *)
Lemma status_fold_NoDup t stg l acc :
  NoDup (l.*1) →
  (∀ p, p ∈ staged acc ++ modified acc ++ untracked acc → p ∉ l.*1) →
  NoDup (staged acc ++ modified acc ++ untracked acc) →
  NoDup (staged (foldl (status_step t stg) acc l)
         ++ modified (foldl (status_step t stg) acc l)
         ++ untracked (foldl (status_step t stg) acc l)).
Proof.
  revert acc. induction l as [|[q node] l IH]; intros acc Hl Hacc Hnd; [done|].
  simpl in Hl. apply NoDup_cons in Hl as [Hq Hl]. simpl.
  assert (Hfresh : q ∉ staged acc ++ modified acc ++ untracked acc).
  { intros Hin. apply (Hacc q Hin). simpl. by left. }
  assert (Hrest : ∀ p, p ∈ staged acc ++ modified acc ++ untracked acc → p ∉ l.*1).
  { intros p Hin Hp. apply (Hacc p Hin). simpl. by right. }
  apply IH; [done| |]; unfold status_step;
    destruct (is_ignored t q); try done;
    destruct node as [content|]; try done;
    destruct (stg !! q) as [e|]; [case_bool_decide| | case_bool_decide|]; simpl.
  all: try (intros p; rewrite !elem_of_app, ?list_elem_of_singleton;
            rewrite !elem_of_app in Hfresh;
            intros Hp; split_cases; subst; try done;
            apply Hrest; rewrite !elem_of_app; auto).
  all: rewrite !elem_of_app in Hfresh.
  all: apply NoDup_app in Hnd as (Hs & Hsm & Hmu);
       apply NoDup_app in Hmu as (Hm & Hmu & Hu).
  all: repeat first [ apply NoDup_app; split_and!
                    | apply NoDup_singleton ]; try done.
  all: try (intros p; rewrite ?elem_of_app, ?list_elem_of_singleton;
            intros Hp1 Hp2; split_cases; subst;
            try (apply (Hsm p); [done|rewrite elem_of_app; auto]);
            try (by apply (Hmu p)); tauto).
Qed.

(** What [get_status] lists, path by path. *)
Lemma get_status_classes w r :
  repo w = Some r →
  ∃ status,
    get_status w = (Ok status, w)
    ∧ NoDup (staged status ++ modified status ++ untracked status)
    ∧ ∀ p,
        (p ∈ staged status
         ↔ ∃ content e, tree w !! p = Some (NFile content)
             ∧ is_ignored (tree w) p = false
             ∧ staging r !! p = Some e ∧ sha256 content = hash e)
        ∧ (p ∈ modified status
           ↔ ∃ content e, tree w !! p = Some (NFile content)
               ∧ is_ignored (tree w) p = false
               ∧ staging r !! p = Some e ∧ sha256 content ≠ hash e)
        ∧ (p ∈ untracked status
           ↔ ∃ content, tree w !! p = Some (NFile content)
               ∧ is_ignored (tree w) p = false
               ∧ staging r !! p = None).
Proof.
  intros Hr. eexists. split; [by apply get_status_run|]. split.
  - apply status_fold_NoDup; simpl.
    + apply NoDup_fst_map_to_list.
    + by intros p ?%elem_of_nil.
    + constructor.
  - intros p.
    rewrite status_fold_staged, status_fold_modified, status_fold_untracked.
    simpl. rewrite !elem_of_nil. setoid_rewrite elem_of_map_to_list.
    split_and!; (split; [intros [[]|?]; done | by right]).
Qed.

(** X1. A status that [get_status] returns on an initialized repository
    comes with the file system left alone.  A path is listed in it as
    staged exactly when the tree holds a file there that is not ignored and
    the staging table has an entry for it with the digest of the file; as
    modified when the entry has another digest; as untracked when the
    staging table has no entry.  No path is listed twice. *)
Theorem get_status_lists w r status :
  repo w = Some r →
  fst (get_status w) = Ok status →
  snd (get_status w) = w
  ∧ NoDup (staged status ++ modified status ++ untracked status)
  ∧ ∀ p,
      (p ∈ staged status
       ↔ ∃ content e, tree w !! p = Some (NFile content)
           ∧ is_ignored (tree w) p = false
           ∧ staging r !! p = Some e ∧ sha256 content = hash e)
      ∧ (p ∈ modified status
         ↔ ∃ content e, tree w !! p = Some (NFile content)
             ∧ is_ignored (tree w) p = false
             ∧ staging r !! p = Some e ∧ sha256 content ≠ hash e)
      ∧ (p ∈ untracked status
         ↔ ∃ content, tree w !! p = Some (NFile content)
             ∧ is_ignored (tree w) p = false
             ∧ staging r !! p = None).
Proof.
  intros Hr Hst.
  destruct (get_status_classes w r Hr) as (status' & Hrun & Hnd & Hlists).
  rewrite Hrun in Hst |- *. simpl in Hst. injection Hst as <-. done.
Qed.

(** The guard of [switch_branch] and [merge_branch] in terms of the
    stores. *)
Lemma dirty_tree_iff w r :
  repo w = Some r →
  dirty_tree w
  ↔ ∃ p content, tree w !! p = Some (NFile content)
      ∧ is_ignored (tree w) p = false ∧ is_Some (staging r !! p).
Proof.
  intros Hr. destruct (get_status_classes w r Hr) as (status & Hst & _ & Hlists).
  unfold dirty_tree. rewrite Hst. simpl. split.
  - intros (status' & [= <-] & Hd). unfold dirty in Hd.
    apply orb_true_iff in Hd as [Hd|Hd].
    + destruct (modified status) as [|p l] eqn:Hm; [done|].
      destruct (Hlists p) as (_ & [Hp _] & _).
      destruct Hp as (c & e & ? & ? & ? & _); [rewrite ?Hm; by left|]. eauto 6.
    + destruct (staged status) as [|p l] eqn:Hm; [done|].
      destruct (Hlists p) as ([Hp _] & _).
      destruct Hp as (c & e & ? & ? & ? & _); [rewrite ?Hm; by left|]. eauto 6.
  - intros (p & c & Ht & Hig & [e He]). exists status. split; [done|].
    unfold dirty. apply orb_true_iff.
    destruct (decide (sha256 c = hash e)) as [Heq|Hne].
    + right. destruct (Hlists p) as ([_ Hp] & _).
      destruct (staged status); [|done].
      by apply elem_of_nil in Hp; [|eauto 6].
    + left. destruct (Hlists p) as (_ & [_ Hp] & _).
      destruct (modified status); [|done].
      by apply elem_of_nil in Hp; [|eauto 6].
Qed.

(** The guard in terms of the tree and the staging table. *)
Lemma clean_spec w r :
  repo w = Some r →
  clean w
  ↔ ∀ p content, tree w !! p = Some (NFile content) →
      is_ignored (tree w) p = false → staging r !! p = None.
Proof.
  intros Hr. split.
  - intros Hc p c Ht Hig. destruct (staging r !! p) as [e|] eqn:He; [|done].
    destruct (clean_not_dirty w Hc). apply (dirty_tree_iff w r Hr).
    exists p, c. by rewrite He.
  - intros Hnone. destruct (clean_or_dirty w r Hr) as [|Hd]; [done|].
    apply (dirty_tree_iff w r Hr) in Hd as (p & c & Ht & Hig & [e He]).
    by rewrite (Hnone p c Ht Hig) in He.
Qed.

(** X2. A status that [get_status] returns passes the uncommitted-changes
    guard of [switch_branch] and [merge_branch] (it lists no staged and no
    modified file) exactly when no file of the working tree that is not
    ignored has an entry in the staging table: an entry whose file is gone
    from the tree does not count. *)
Theorem clean_iff w r status :
  repo w = Some r →
  fst (get_status w) = Ok status →
  dirty status = false
  ↔ ∀ p content, tree w !! p = Some (NFile content) →
      is_ignored (tree w) p = false → staging r !! p = None.
Proof.
  intros Hr Hst. rewrite <- (clean_spec w r Hr). split.
  - intros Hd. by exists status.
  - intros (status' & Hst' & Hd). congruence.
Qed.

End Status.

Section Calls.

Context `{Collaborators}.

(** *** The calls that write, case by case *)

Lemma stage_file_run file_path now w r :
  repo w = Some r →
  stage_file file_path now w
  = match tree w !! file_path with
    | None => (Raise (FileNotFound file_path), w)
    | Some NDir => (Raise (NotAFile file_path), w)
    | Some (NFile content) =>
        if is_ignored (tree w) file_path
        then (Raise (FileIgnored file_path), w)
        else (Ok tt, mkWorld (tree w)
               (Some (mkRepo (<[file_path := mkEntry (sha256 content) now]> (staging r))
                             (branches r) (commits r))))
    end.
Proof.
  intros Hr. unfold stage_file. run_init Hr.
  destruct (tree w !! file_path) as [[content|]|]; simpl; try done.
  destruct (is_ignored (tree w) file_path); simpl; try done.
  by repeat (progress (rewrite ?Hr; simpl)).
Qed.

Lemma stage_file_uninitialized file_path now w :
  repo w = None → stage_file file_path now w = (Raise NotARepository, w).
Proof. intros Hr. unfold stage_file. by run_none Hr. Qed.

Lemma commit_uninitialized msg author now user_env w :
  repo w = None →
  commit msg author now user_env w = (Raise NotARepository, w).
Proof. intros Hr. unfold commit. by run_none Hr. Qed.

Lemma commit_run msg author now user_env w r :
  repo w = Some r →
  commit msg author now user_env w
  = if bool_decide (staging r = ∅) then (Raise NoChangesStaged, w)
    else match branches r !! "current" with
         | None => (Raise (KeyError (Some "current")), w)
         | Some None => (Raise (KeyError None), w)
         | Some (Some cur) =>
             match branches r !! cur with
             | None => (Raise (KeyError (Some cur)), w)
             | Some head =>
                 let rec := mkCommit msg (author_or_user author user_env) now
                                     head (staging r) in
                 let c := sha256 (json_dumps rec) in
                 (Ok c, mkWorld (tree w)
                          (Some (mkRepo ∅ (<[cur := Some c]> (branches r))
                                        (<[c := rec]> (commits r)))))
             end
         end.
Proof.
  intros Hr. unfold commit. run_init Hr.
  case_bool_decide; simpl; [done|]. rewrite Hr. simpl.
  destruct (branches r !! "current") as [[cur|]|]; simpl; try done.
  destruct (branches r !! cur) as [head|]; simpl; try done.
  by repeat (progress (rewrite ?Hr; simpl)).
Qed.

Lemma create_branch_uninitialized branch_name w :
  repo w = None → create_branch branch_name w = (Raise NotARepository, w).
Proof. intros Hr. unfold create_branch. by run_none Hr. Qed.

Lemma create_branch_run branch_name w r :
  repo w = Some r →
  create_branch branch_name w
  = match branches r !! branch_name with
    | Some _ => (Raise (BranchExists branch_name), w)
    | None =>
        match branches r !! "current" with
        | None => (Raise (KeyError (Some "current")), w)
        | Some None => (Raise (KeyError None), w)
        | Some (Some cur) =>
            match branches r !! cur with
            | None => (Raise (KeyError (Some cur)), w)
            | Some head =>
                (Ok tt, mkWorld (tree w)
                          (Some (mkRepo (staging r)
                                        (<[branch_name := head]> (branches r))
                                        (commits r))))
            end
        end
    end.
Proof.
  intros Hr. unfold create_branch. run_init Hr.
  destruct (branches r !! branch_name) as [v|] eqn:Hb.
  { by rewrite bool_decide_eq_true_2. }
  rewrite bool_decide_eq_false_2 by (by intros [? ?]). simpl.
  destruct (branches r !! "current") as [[cur|]|]; simpl; try done.
  destruct (branches r !! cur) as [head|]; simpl; try done.
  by rewrite Hr.
Qed.

Lemma switch_branch_uninitialized branch_name w :
  repo w = None → switch_branch branch_name w = (Raise NotARepository, w).
Proof. intros Hr. unfold switch_branch. by run_none Hr. Qed.

Lemma switch_branch_cases branch_name w r status :
  repo w = Some r →
  get_status w = (Ok status, w) →
  switch_branch branch_name w
  = match branches r !! branch_name with
    | None => (Raise (BranchNotFound branch_name), w)
    | Some _ =>
        if dirty status then (Raise UncommittedSwitch, w)
        else (Ok tt, mkWorld (tree w)
                (Some (mkRepo (staging r)
                              (<["current" := Some branch_name]> (branches r))
                              (commits r))))
    end.
Proof.
  intros Hr Hst. unfold switch_branch. run_init Hr.
  destruct (branches r !! branch_name) as [v|] eqn:Hb.
  2: { by rewrite bool_decide_eq_true_2. }
  rewrite bool_decide_eq_false_2 by done. simpl. rewrite Hst.
  destruct (dirty status); simpl; [done|]. by rewrite Hr.
Qed.

Lemma init_run w :
  init w
  = match repo w with
    | Some _ => (Raise RepositoryExists, w)
    | None =>
        (Ok tt, mkWorld (match tree w !! ".svcignore" with
                         | Some _ => tree w
                         | None => <[".svcignore" := NFile default_ignore]> (tree w)
                         end)
                  (Some (mkRepo ∅ (<["current" := Some "main"]> (<["main" := None]> ∅)) ∅)))
    end.
Proof. done. Qed.

(** A mutating call that raises leaves the file system as it was. *)
Lemma raise_unchanged w :
  (∀ e, fst (init w) = Raise e → snd (init w) = w)
  ∧ (∀ file_path now e,
       fst (stage_file file_path now w) = Raise e →
       snd (stage_file file_path now w) = w)
  ∧ (∀ msg author now user_env e,
       fst (commit msg author now user_env w) = Raise e →
       snd (commit msg author now user_env w) = w)
  ∧ (∀ branch_name e,
       fst (create_branch branch_name w) = Raise e →
       snd (create_branch branch_name w) = w)
  ∧ (∀ branch_name e,
       fst (switch_branch branch_name w) = Raise e →
       snd (switch_branch branch_name w) = w).
Proof.
  split_and!.
  - intros e. rewrite init_run. by destruct (repo w).
  - intros file_path now e. destruct (repo w) as [r|] eqn:Hr.
    + rewrite (stage_file_run _ _ w r Hr).
      destruct (tree w !! file_path) as [[content|]|]; try done.
      by destruct (is_ignored (tree w) file_path).
    + by rewrite stage_file_uninitialized.
  - intros msg author now user_env e. destruct (repo w) as [r|] eqn:Hr.
    + rewrite (commit_run _ _ _ _ w r Hr). case_bool_decide; [done|].
      destruct (branches r !! "current") as [[cur|]|]; try done.
      by destruct (branches r !! cur).
    + by rewrite commit_uninitialized.
  - intros branch_name e. destruct (repo w) as [r|] eqn:Hr.
    + rewrite (create_branch_run _ w r Hr).
      destruct (branches r !! branch_name); [done|].
      destruct (branches r !! "current") as [[cur|]|]; try done.
      by destruct (branches r !! cur).
    + by rewrite create_branch_uninitialized.
  - intros branch_name e. destruct (repo w) as [r|] eqn:Hr.
    + destruct (get_status_initialized w r Hr) as [status Hst].
      rewrite (switch_branch_cases _ w r status Hr Hst).
      destruct (branches r !! branch_name); [|done].
      by destruct (dirty status).
    + by rewrite switch_branch_uninitialized.
Qed.

(** X3. A call of [init], [stage_file], [commit], [create_branch] or
    [switch_branch] that raises has written nothing: the file system is the
    one the call was made on. *)

Theorem failed_call_writes_nothing w :
  (∀ e, fst (init w) = Raise e → snd (init w) = w)
  ∧ (∀ file_path now e,
       fst (stage_file file_path now w) = Raise e →
       snd (stage_file file_path now w) = w)
  ∧ (∀ msg author now user_env e,
       fst (commit msg author now user_env w) = Raise e →
       snd (commit msg author now user_env w) = w)
  ∧ (∀ branch_name e,
       fst (create_branch branch_name w) = Raise e →
       snd (create_branch branch_name w) = w)
  ∧ (∀ branch_name e,
       fst (switch_branch branch_name w) = Raise e →
       snd (switch_branch branch_name w) = w).
Proof. exact (raise_unchanged w). Qed.


(** A call of [switch_branch] that returns was made on a clean tree. *)
Lemma switch_ok_inv branch_name w :
  fst (switch_branch branch_name w) = Ok tt →
  ∃ r, repo w = Some r ∧ is_Some (branches r !! branch_name) ∧ clean w
    ∧ snd (switch_branch branch_name w)
      = mkWorld (tree w)
          (Some (mkRepo (staging r)
                        (<["current" := Some branch_name]> (branches r))
                        (commits r))).
Proof.
  destruct (repo w) as [r|] eqn:Hr.
  2: { by rewrite switch_branch_uninitialized. }
  destruct (get_status_initialized w r Hr) as [status Hst].
  rewrite (switch_branch_cases _ w r status Hr Hst).
  destruct (branches r !! branch_name) as [v|] eqn:Hb; [|done].
  destruct (dirty status) eqn:Hd; [done|]. intros _.
  exists r. split_and!; [done|by rewrite Hb| |done].
  exists status. by rewrite Hst.
Qed.

(** X5. After a call of [stage_file] that returns, [get_status] lists the
    path as staged, and as long as the file system stays as it is neither
    [switch_branch] nor [merge_branch] returns, whatever the branch. *)
Theorem stage_file_blocks file_path now w w' :
  stage_file file_path now w = (Ok tt, w') →
  (∃ status, get_status w' = (Ok status, w') ∧ file_path ∈ staged status)
  ∧ (∀ branch_name, fst (switch_branch branch_name w') ≠ Ok tt)
  ∧ (∀ fuel branch_name result,
       fst (merge_branch fuel branch_name w') ≠ Ok result).
Proof.
  intros Hstage. destruct (repo w) as [r|] eqn:Hr.
  2: { by rewrite stage_file_uninitialized in Hstage. }
  rewrite (stage_file_run _ _ w r Hr) in Hstage.
  destruct (tree w !! file_path) as [[content|]|] eqn:Ht; try done.
  destruct (is_ignored (tree w) file_path) eqn:Hig; [done|].
  injection Hstage as <-.
  set (r' := mkRepo (<[file_path := mkEntry (sha256 content) now]> (staging r))
                    (branches r) (commits r)).
  set (w' := mkWorld (tree w) (Some r')).
  destruct (get_status_classes w' r' eq_refl) as (status & Hst & _ & Hlists).
  assert (Hin : file_path ∈ staged status).
  { apply Hlists. exists content, (mkEntry (sha256 content) now).
    split_and!; [done..| |done]. simpl. by rewrite lookup_insert_eq. }
  assert (Hdirty : dirty_tree w').
  { exists status. rewrite Hst. split; [done|]. unfold dirty.
    apply orb_true_iff. right. by destruct (staged status); [apply elem_of_nil in Hin|]. }
  split_and!.
  - eauto.
  - intros branch_name (? & _ & _ & Hc & _)%switch_ok_inv.
    by apply (clean_not_dirty w').
  - intros fuel branch_name result (? & ? & _ & _ & _ & _ & Hc)%merge_ok_inv.
    by apply (clean_not_dirty w').
Qed.

(** With nothing staged, every file that is not ignored is untracked. *)
Lemma status_nothing_staged w r :
  repo w = Some r → staging r = ∅ →
  ∃ status, get_status w = (Ok status, w)
    ∧ staged status = [] ∧ modified status = []
    ∧ ∀ p, p ∈ untracked status
           ↔ ∃ content, tree w !! p = Some (NFile content)
               ∧ is_ignored (tree w) p = false.
Proof.
  intros Hr Hs.
  destruct (get_status_classes w r Hr) as (status & Hst & _ & Hlists).
  exists status. split_and!; [done| | |].
  - destruct (staged status) as [|p l] eqn:Hl; [done|].
    destruct (Hlists p) as ([Hp _] & _).
    destruct Hp as (c & e & _ & _ & He & _); [rewrite ?Hl; by left|].
    by rewrite Hs, lookup_empty in He.
  - destruct (modified status) as [|p l] eqn:Hl; [done|].
    destruct (Hlists p) as (_ & [Hp _] & _).
    destruct Hp as (c & e & _ & _ & He & _); [rewrite ?Hl; by left|].
    by rewrite Hs, lookup_empty in He.
  - intros p. destruct (Hlists p) as (_ & _ & ->).
    rewrite Hs. setoid_rewrite lookup_empty.
    split; [intros (c & ? & ? & _); eauto | intros (c & ? & ?); eauto].
Qed.

(** What [get_status] finds after a call of [commit] that returns. *)
Lemma commit_then_status msg author now user_env w c w' :
  commit msg author now user_env w = (Ok c, w') →
  tree w' = tree w
  ∧ (∃ r', repo w' = Some r' ∧ staging r' = ∅)
  ∧ (∃ status, get_status w' = (Ok status, w')
       ∧ staged status = [] ∧ modified status = []
       ∧ ∀ p, p ∈ untracked status
              ↔ ∃ content, tree w !! p = Some (NFile content)
                  ∧ is_ignored (tree w) p = false)
  ∧ clean w'.
Proof.
  intros Hcommit. destruct (repo w) as [r|] eqn:Hr.
  2: { by rewrite commit_uninitialized in Hcommit. }
  rewrite (commit_run _ _ _ _ w r Hr) in Hcommit.
  case_bool_decide; [done|].
  destruct (branches r !! "current") as [[cur|]|]; try done.
  destruct (branches r !! cur) as [head|]; try done.
  injection Hcommit as <- <-. simpl.
  split_and!; [done|by eexists| |].
  - by eapply (status_nothing_staged (mkWorld (tree w) _)).
  - by eapply (clean_empty_staging (mkWorld (tree w) _)).
Qed.

(** X6. After a call of [commit] that returns, the working tree is as it
    was and the staging table is empty; a status that [get_status] then
    returns lists no staged and no modified file, and lists as untracked
    every file of the working tree that is not ignored, the files just
    committed among them; so the uncommitted-changes guard finds nothing
    to object to. *)
Theorem commit_leaves_untracked msg author now user_env w c w' :
  commit msg author now user_env w = (Ok c, w') →
  tree w' = tree w
  ∧ (∃ r', repo w' = Some r' ∧ staging r' = ∅)
  ∧ (∀ status, fst (get_status w') = Ok status →
       staged status = [] ∧ modified status = []
       ∧ ∀ p, p ∈ untracked status
              ↔ ∃ content, tree w !! p = Some (NFile content)
                  ∧ is_ignored (tree w) p = false)
  ∧ ¬ dirty_tree w'.
Proof.
  intros Hcommit.
  destruct (commit_then_status _ _ _ _ _ _ _ Hcommit)
    as (Ht & Hr' & (status' & Hrun & Hlists) & Hclean).
  split_and!; [done | done | | by apply clean_not_dirty].
  intros status Hst. rewrite Hrun in Hst. simpl in Hst. by injection Hst as <-.
Qed.

End Calls.

Section Branches.

Context `{Collaborators}.

(** *** create_branch and switch_branch *)

Lemma list_branches_uninitialized w :
  repo w = None → list_branches w = (Raise NotARepository, w).
Proof. intros Hr. unfold list_branches. by run_none Hr. Qed.

Lemma filter_insert_current (brs : gmap string (option string)) v :
  filter (λ kv, fst kv ≠ "current") (<["current" := v]> brs)
  = filter (λ kv, fst kv ≠ "current") brs.
Proof.
  apply map_eq. intros k. apply option_eq. intros x.
  rewrite !map_lookup_filter_Some. simpl.
  split; intros [Hk Hne]; (split; [|done]).
  - by rewrite lookup_insert_ne in Hk.
  - by rewrite lookup_insert_ne.
Qed.

Lemma filter_insert_branch (brs : gmap string (option string)) k v :
  k ≠ "current" →
  filter (λ kv, fst kv ≠ "current") (<[k := v]> brs)
  = <[k := v]> (filter (λ kv, fst kv ≠ "current") brs).
Proof. intros Hk. by rewrite map_filter_insert_True. Qed.

(** X7. On an initialized repository whose current entry names a key of
    the branch table, [create_branch] with a name that is no key of the
    table returns; the new branch has the head of the current branch, null
    when that has no commit; the current branch stays the current one, and
    the other branches, the staging table, the commit files and the working
    tree are as before. *)
Theorem create_branch_forks branch_name w r cur head :
  repo w = Some r →
  branches r !! branch_name = None →
  branches r !! "current" = Some (Some cur) →
  branches r !! cur = Some head →
  ∃ w' r',
    create_branch branch_name w = (Ok tt, w')
    ∧ repo w' = Some r'
    ∧ branches r' !! branch_name = Some head
    ∧ fst (get_current_branch w') = Ok (Some cur)
    ∧ fst (list_branches w')
      = Ok (<[branch_name := head]> (filter (λ kv, fst kv ≠ "current") (branches r)))
    ∧ staging r' = staging r
    ∧ commits r' = commits r
    ∧ tree w' = tree w.
Proof.
  intros Hr Hb Hcur Hhead.
  assert (Hne : branch_name ≠ "current") by congruence.
  eexists _, _. rewrite (create_branch_run _ w r Hr), Hb, Hcur, Hhead.
  split_and!; try done.
  - simpl. by rewrite lookup_insert_eq.
  - erewrite get_current_branch_run; [done..|]. simpl.
    rewrite lookup_insert_ne by done. done.
  - erewrite list_branches_run by done. simpl.
    by rewrite filter_insert_branch.
Qed.

(** X8. [switch_branch] moves the current pointer and nothing else.  It
    returns exactly when the repository is initialized, the name is a key of
    the branch table and the guard is passed; then [get_current_branch]
    returns the name.  Whether it returns or raises, what [list_branches]
    reports, the staging table, the commit files and the working tree are
    as before. *)
Theorem switch_branch_moves_pointer_only branch_name w :
  let w' := snd (switch_branch branch_name w) in
  (fst (switch_branch branch_name w) = Ok tt
   ↔ ∃ r, repo w = Some r ∧ is_Some (branches r !! branch_name) ∧ clean w)
  ∧ (fst (switch_branch branch_name w) = Ok tt →
     fst (get_current_branch w') = Ok (Some branch_name))
  ∧ fst (list_branches w') = fst (list_branches w)
  ∧ staging <$> repo w' = staging <$> repo w
  ∧ store w' = store w
  ∧ tree w' = tree w.
Proof.
  intros w'. unfold w'. clear w'.
  destruct (repo w) as [r|] eqn:Hr.
  2: { rewrite (switch_branch_uninitialized _ w Hr). simpl.
       split_and!; rewrite ?Hr; try done. split; [done|]. by intros (r & ? & _). }
  destruct (get_status_initialized w r Hr) as [status Hst].
  rewrite (switch_branch_cases _ w r status Hr Hst).
  destruct (branches r !! branch_name) as [v|] eqn:Hb.
  2: { simpl. split_and!; rewrite ?Hr; try done.
       split; [done|]. intros (r0 & [= <-] & [? ?] & _). congruence. }
  destruct (dirty status) eqn:Hd; simpl.
  - split_and!; rewrite ?Hr; try done. split; [done|].
    intros (r0 & _ & _ & (status' & Hst' & Hd')).
    rewrite Hst in Hst'. simpl in Hst'. congruence.
  - split_and!; rewrite ?Hr; try done.
    + split; [|done]. intros _. exists r. split_and!; [done|by eexists|].
      exists status. by rewrite Hst.
    + intros _. erewrite get_current_branch_run; [done..|].
      simpl. by rewrite lookup_insert_eq.
    + erewrite !list_branches_run by done. simpl.
      by rewrite filter_insert_current.
    + unfold store. simpl. by rewrite Hr.
Qed.

End Branches.

Section Invariants.

Context `{Collaborators}.

(** *** What the calls keep *)

Ltac unchanged r Hr :=
  split; [done|]; exists r; split; [by rewrite ?Hr|]; by left.

(** What a call does to an initialized repository. *)
Lemma exec_effect o w r :
  repo w = Some r →
  tree (exec o w) = tree w
  ∧ ∃ r', repo (exec o w) = Some r'
    ∧ (r' = r
       ∨ (∃ file_path e,
            r' = mkRepo (<[file_path := e]> (staging r)) (branches r) (commits r))
       ∨ (∃ msg author now user_env cur head,
            o = OCommit msg author now user_env
            ∧ branches r !! "current" = Some (Some cur)
            ∧ branches r !! cur = Some head
            ∧ let rec := mkCommit msg (author_or_user author user_env) now
                                  head (staging r) in
              r' = mkRepo ∅ (<[cur := Some (sha256 (json_dumps rec))]> (branches r))
                          (<[sha256 (json_dumps rec) := rec]> (commits r)))
       ∨ (∃ branch_name cur head,
            branches r !! branch_name = None
            ∧ branches r !! "current" = Some (Some cur)
            ∧ branches r !! cur = Some head
            ∧ r' = mkRepo (staging r) (<[branch_name := head]> (branches r))
                          (commits r))
       ∨ (∃ branch_name,
            o = OSwitch branch_name
            ∧ is_Some (branches r !! branch_name)
            ∧ r' = mkRepo (staging r)
                          (<["current" := Some branch_name]> (branches r))
                          (commits r))).
Proof.
  intros Hr.
  destruct o as [|file_path now|msg author now user_env|branch_name
                |branch_name|fuel branch_name| |]; simpl.
  - rewrite init_run, Hr. simpl. unchanged r Hr.
  - rewrite (stage_file_run _ _ w r Hr).
    destruct (tree w !! file_path) as [[content|]|]; simpl; try unchanged r Hr.
    destruct (is_ignored (tree w) file_path); simpl; try unchanged r Hr.
    split; [done|]. eexists. split; [done|]. right. left. by eexists _, _.
  - rewrite (commit_run _ _ _ _ w r Hr).
    case_bool_decide; simpl; try unchanged r Hr.
    destruct (branches r !! "current") as [[cur|]|] eqn:Hcur; simpl; try unchanged r Hr.
    destruct (branches r !! cur) as [head|] eqn:Hhead; simpl; try unchanged r Hr.
    split; [done|]. eexists. split; [done|].
    right. right. left. by exists msg, author, now, user_env, cur, head.
  - rewrite (create_branch_run _ w r Hr).
    destruct (branches r !! branch_name) eqn:Hb; simpl; try unchanged r Hr.
    destruct (branches r !! "current") as [[cur|]|] eqn:Hcur; simpl; try unchanged r Hr.
    destruct (branches r !! cur) as [head|] eqn:Hhead; simpl; try unchanged r Hr.
    split; [done|]. eexists. split; [done|].
    right. right. right. left. by exists branch_name, cur, head.
  - destruct (get_status_initialized w r Hr) as [status Hst].
    rewrite (switch_branch_cases _ w r status Hr Hst).
    destruct (branches r !! branch_name) eqn:Hb; simpl; try unchanged r Hr.
    destruct (dirty status); simpl; try unchanged r Hr.
    split; [done|]. eexists. split; [done|].
    do 4 right. exists branch_name. by rewrite Hb.
  - rewrite (readonly_merge_branch fuel branch_name w). unchanged r Hr.
  - rewrite (list_branches_run w r Hr). simpl. unchanged r Hr.
  - unfold get_current_branch. run_init Hr.
    destruct (branches r !! "current"); simpl; unchanged r Hr.
Qed.

Lemma current_ok_intro (brs : gmap string (option string)) cur :
  brs !! "current" = Some (Some cur) → cur ≠ "current" →
  is_Some (brs !! cur) → current_ok brs = true.
Proof.
  intros Hcur Hne [head Hhead]. unfold current_ok, branch_names. rewrite Hcur.
  apply bool_decide_eq_true_2, elem_of_dom. exists head.
  by apply map_lookup_filter_Some.
Qed.

(** The invariant of the states reached without
    [switch_branch("current")]. *)
Lemma guarded_step_sound w w' :
  guarded_step w w' →
  (∀ r, repo w = Some r →
     current_ok (branches r) = true ∧ heads_resolve r
     ∧ parents_resolve (commits r)) →
  ∀ r', repo w' = Some r' →
     current_ok (branches r') = true ∧ heads_resolve r'
     ∧ parents_resolve (commits r').
Proof.
  intros Hstep Hinv r' Hr'. destruct Hstep as [o w Ho | t w]; [|by apply Hinv].
  destruct (repo w) as [r|] eqn:Hr.
  2: { assert (o = OInit ∨ o ≠ OInit) as [->|Hni] by (destruct o; auto).
       - rewrite (exec_init w Hr) in Hr'. injection Hr' as <-. simpl.
         split_and!; [by vm_compute| |].
         + intros k h Hk Hh. simpl in Hh.
           apply lookup_insert_Some in Hh as [[? _]|[_ Hh]]; [done|].
           by apply lookup_insert_Some in Hh as [[_ ?]|[_ ?]].
         + by intros k c p ?.
       - rewrite (exec_uninitialized o w Hr Hni) in Hr'. congruence. }
  destruct (Hinv r eq_refl) as (Hok & Hheads & Hparents).
  destruct (current_ok_inv _ Hok) as (cur0 & head0 & Hcur0 & Hne0 & Hhead0).
  destruct (exec_effect o w r Hr) as (_ & r'' & Hr'' & Heff).
  assert (r'' = r') as -> by congruence. clear Hr' Hr''.
  destruct Heff as [->|[(p & e & ->)|[Hcommit|[Hcreate|Hswitch]]]]; try done.
  - destruct Hcommit as (msg & author & now & user_env & cur & head
                         & -> & Hcur & Hhead & ->). simpl.
    assert (cur = cur0) as -> by congruence.
    set (rec := mkCommit msg (author_or_user author user_env) now head (staging r)).
    set (c := sha256 (json_dumps rec)).
    split_and!.
    + apply (current_ok_intro _ cur0); [by rewrite lookup_insert_ne| done|].
      rewrite lookup_insert_eq. by eexists.
    + intros k h Hk Hh. simpl in *.
      apply lookup_insert_is_Some'.
      destruct (decide (k = cur0)) as [->|Hkc].
      * rewrite lookup_insert_eq in Hh. left. congruence.
      * rewrite lookup_insert_ne in Hh by done. right. by eapply Hheads.
    + intros k c' p Hk Hp. apply lookup_insert_is_Some'. right.
      apply lookup_insert_Some in Hk as [[_ <-]|[_ Hk]].
      * simpl in Hp. subst head. by eapply (Hheads cur0).
      * by eapply Hparents.
  - destruct Hcreate as (branch_name & cur & head & Hb & Hcur & Hhead & ->).
    simpl. assert (cur = cur0) as -> by congruence.
    assert (branch_name ≠ "current") by congruence.
    assert (branch_name ≠ cur0) by congruence.
    split_and!.
    + apply (current_ok_intro _ cur0); [by rewrite lookup_insert_ne| done|].
      rewrite lookup_insert_ne by done. by eexists.
    + intros k h Hk Hh. simpl in *.
      apply lookup_insert_Some in Hh as [[_ ->]|[_ Hh]].
      * by eapply (Hheads cur0).
      * by eapply Hheads.
    + done.
  - destruct Hswitch as (branch_name & -> & Hb & ->). simpl.
    assert (branch_name ≠ "current") by congruence.
    split_and!.
    + apply (current_ok_intro _ branch_name);
        [by rewrite lookup_insert_eq | done | by rewrite lookup_insert_ne].
    + intros k h Hk Hh. simpl in *.
      rewrite lookup_insert_ne in Hh by done. by eapply Hheads.
    + done.
Qed.

(** The invariant of the guarded steps. *)
Lemma guarded_invariant w r :
  guarded_reachable w →
  repo w = Some r →
  current_ok (branches r) = true
  ∧ heads_resolve r
  ∧ parents_resolve (commits r).
Proof.
  intros (w0 & Hr0 & Hsteps). revert r. revert w Hsteps.
  apply (rtc_ind_r (λ w, ∀ r, repo w = Some r →
           current_ok (branches r) = true ∧ heads_resolve r
           ∧ parents_resolve (commits r))).
  - congruence.
  - intros w1 w2 _ Hstep IH. by apply (guarded_step_sound w1 w2).
Qed.

(** X9. In every state reached from a tree without [.repo/] by calls of
    the interface other than [switch_branch("current")], and by edits of
    the working tree, the current entry names one of the branches
    [list_branches] reports, every head that is not null names a commit
    file, and so does every parent link that is not null. *)

Theorem guarded_reachable_sound w r :
  guarded_reachable w →
  repo w = Some r →
  current_ok (branches r) = true
  ∧ heads_resolve r
  ∧ parents_resolve (commits r).
Proof. exact (guarded_invariant w r). Qed.

(** X10. In every state the interface can reach, [switch_branch("current")]
    included, every commit file is named by the digest of the JSON text of
    the record it holds. *)
Theorem reachable_addressed w :
  reachable w → addressed (store w).
Proof.
  intros (w0 & Hr0 & Hsteps). revert w Hsteps.
  apply (rtc_ind_r (λ w, addressed (store w))).
  - unfold store. rewrite Hr0. by intros k c ?.
  - intros w1 w2 _ Hstep IH. destruct Hstep as [o w | t w]; [|done].
    unfold store in *. destruct (repo w) as [r|] eqn:Hr.
    2: { assert (o = OInit ∨ o ≠ OInit) as [->|Hni] by (destruct o; auto).
         - rewrite (exec_init w Hr). by intros k c ?.
         - by rewrite (exec_uninitialized o w Hr Hni), Hr. }
    destruct (exec_effect o w r Hr) as (_ & r' & -> & Heff).
    destruct Heff as [->|[(p & e & ->)|[Hcommit|[Hcreate|Hswitch]]]]; try done.
    + destruct Hcommit as (msg & author & now & user_env & cur & head
                           & -> & Hcur & Hhead & ->). simpl.
      intros k c [[<- <-]|[_ Hk]]%lookup_insert_Some; [done|]. by apply IH.
    + by destruct Hcreate as (branch_name & cur & head & _ & _ & _ & ->).
    + by destruct Hswitch as (branch_name & _ & _ & ->).
Qed.

End Invariants.

Section Permanence.

Context `{Collaborators}.

(** X11. Commit files stay: a call of the interface removes none of them,
    and only [commit] writes one; after any other call [get_commit], asked
    for an id that is a file name, finds what it found before. *)
Theorem commit_files_stay o w :
  (∀ k, is_Some (store w !! k) → is_Some (store (exec o w) !! k))
  ∧ ((∀ msg author now user_env, o ≠ OCommit msg author now user_env) →
     store (exec o w) = store w
     ∧ ∀ h, file_name (py_str h) = true →
            fst (get_commit h (exec o w)) = fst (get_commit h w)).
Proof.
  assert (Hstore : (∀ k, is_Some (store w !! k) → is_Some (store (exec o w) !! k))
    ∧ ((∀ msg author now user_env, o ≠ OCommit msg author now user_env) →
       store (exec o w) = store w)).
  { unfold store. destruct (repo w) as [r|] eqn:Hr.
    2: { split; [by intros k [? ?%lookup_empty_Some]|]. intros _.
         assert (o = OInit ∨ o ≠ OInit) as [->|Hni] by (destruct o; auto).
         - by rewrite (exec_init w Hr).
         - by rewrite (exec_uninitialized o w Hr Hni), Hr. }
    destruct (exec_effect o w r Hr) as (_ & r' & -> & Heff).
    destruct Heff as [->|[(p & e & ->)|[Hcommit|[Hcreate|Hswitch]]]]; try done.
    - destruct Hcommit as (msg & author & now & user_env & cur & head
                           & -> & Hcur & Hhead & ->). simpl.
      split; [|by intros Hno; destruct (Hno msg author now user_env)].
      intros k Hk. apply lookup_insert_is_Some'. by right.
    - by destruct Hcreate as (branch_name & cur & head & _ & _ & _ & ->).
    - by destruct Hswitch as (branch_name & _ & _ & ->). }
  destruct Hstore as [Hkeep Hsame]. split; [done|]. intros Hno.
  split; [by apply Hsame|]. intros h _.
  rewrite !get_commit_store, (Hsame Hno). by destruct (store w !! py_str h).
Qed.

(** The loop of [_get_commit_history] raises nothing but "Commit not
    found". *)
Lemma history_loop_raises fuel acc cur w e :
  fst (history_loop fuel acc cur w) = Raise e → ∃ h, e = CommitNotFound h.
Proof.
  revert acc cur. induction fuel as [|n IH]; intros acc cur.
  - simpl. by destruct (truthy cur).
  - destruct (truthy cur) eqn:Ht.
    2: { by rewrite history_loop_falsy. }
    apply truthy_inv in Ht as (s & -> & Hs).
    destruct (store w !! s) as [c|] eqn:Hc.
    + rewrite (history_loop_link _ _ s c) by done. apply IH.
    + rewrite history_loop_missing by done. simpl. intros [= <-]. eauto.
Qed.

Lemma common_ancestor_raises fuel a b w e :
  fst (common_ancestor fuel a b w) = Raise e →
  e = NoCommonAncestor ∨ ∃ h, e = CommitNotFound h.
Proof.
  unfold common_ancestor, _get_commit_history, bind.
  pose proof (readonly_history_loop fuel [] a w) as Hwa.
  destruct (history_loop fuel [] a w) as [[hs| e'|] wa] eqn:Ha;
    simpl in Hwa; subst wa; simpl; try done.
  2: { intros [= <-]. right. eapply (history_loop_raises fuel [] a w).
       by rewrite Ha. }
  pose proof (readonly_history_loop fuel [] b w) as Hwb.
  destruct (history_loop fuel [] b w) as [[ht| e'|] wb] eqn:Hb;
    simpl in Hwb; subst wb; simpl; try done.
  2: { intros [= <-]. right. eapply (history_loop_raises fuel [] b w).
       by rewrite Hb. }
  unfold raise_if. destruct (truthy (first_common hs ht)); simpl; [done|].
  intros [= <-]. by left.
Qed.

(** X12. In a state reached without [switch_branch("current")], [commit]
    returns whenever the staging table is not empty, [create_branch]
    whenever the name is no key of the branch table, [get_current_branch]
    returns a name, and [merge_branch] of a source other than the reserved
    key [current] does not end in a [KeyError]. *)
Theorem guarded_no_key_error w r :
  guarded_reachable w →
  repo w = Some r →
  (∀ msg author now user_env,
     staging r ≠ ∅ → ∃ c, fst (commit msg author now user_env w) = Ok c)
  ∧ (∀ branch_name,
       branches r !! branch_name = None →
       fst (create_branch branch_name w) = Ok tt)
  ∧ (∃ cur, fst (get_current_branch w) = Ok (Some cur))
  ∧ (∀ fuel branch_name k,
       branch_name ≠ "current" →
       fst (merge_branch fuel branch_name w) ≠ Raise (KeyError k)).
Proof.
  intros Hreach Hr.
  destruct (guarded_invariant w r Hreach Hr) as (Hok & _ & _).
  destruct (current_ok_inv _ Hok) as (cur & head & Hcur & Hne & Hhead).
  split_and!.
  - intros msg author now user_env Hs.
    rewrite (commit_run _ _ _ _ w r Hr), Hcur, Hhead.
    rewrite bool_decide_eq_false_2 by done. by eexists.
  - intros branch_name Hb.
    by rewrite (create_branch_run _ w r Hr), Hb, Hcur, Hhead.
  - exists cur. by rewrite (get_current_branch_run w r _ Hr Hcur).
  - intros fuel branch_name k _.
    destruct (branches r !! branch_name) as [source_head|] eqn:Hb.
    2: { by rewrite (merge_branch_not_found _ _ w r Hr Hb). }
    destruct (decide (cur = branch_name)) as [->|Hnb].
    { rewrite (merge_into_itself _ _ w r Hr Hcur); [done|by eexists]. }
    destruct (clean_or_dirty w r Hr) as [(status & Hst & Hd)|Hd].
    2: { rewrite (merge_dirty _ _ w r (Some cur) Hr); [done|by eexists|done| |done].
         congruence. }
    unfold merge_branch. run_init Hr.
    rewrite bool_decide_eq_false_2 by congruence. simpl.
    rewrite Hcur. simpl. rewrite bool_decide_eq_false_2 by congruence. simpl.
    rewrite (get_status_pair _ _ Hst). rewrite Hd. simpl. rewrite Hb. simpl.
    rewrite Hr. simpl.
    destruct (commits r !! py_str source_head) as [S|]; [|done].
    rewrite Hhead. simpl. rewrite Hr. simpl.
    destruct (commits r !! py_str head) as [T|]; [|done].
    pose proof (readonly_common_ancestor fuel source_head head w) as Hw.
    destruct (common_ancestor fuel source_head head w)
      as [[ancestor|e|] w'] eqn:Hanc; simpl in Hw; subst w'; try done.
    + rewrite Hr. simpl. by destruct (commits r !! ancestor).
    + simpl. intros [= ->].
      destruct (common_ancestor_raises fuel source_head head w (KeyError k))
        as [?|[? ?]]; [by rewrite Hanc|done..].
Qed.

End Permanence.

Section Merging.

Context `{Collaborators}.

(** *** Histories and merges *)

(** X13. Where the given id and the parent links of the store are file
    names, a history that [_get_commit_history] returns follows the parent
    links from the given id, newest first, lists no id twice, is no longer
    than the number of iterations allowed, and each id in it names a commit
    file; it is empty exactly when the given id is null or empty. *)
Theorem history_is_chain fuel commit_hash w l :
  file_name (py_str commit_hash) = true →
  plain_links (store w) →
  fst (_get_commit_history fuel commit_hash w) = Ok l →
  parent_chain (store w) commit_hash l
  ∧ NoDup l
  ∧ length l ≤ fuel
  ∧ (∀ x, x ∈ l → is_Some (store w !! x))
  ∧ (l = [] ↔ truthy commit_hash = false)
  ∧ (truthy commit_hash = true → head l = commit_hash).
Proof.
  intros _ _ Hl. unfold _get_commit_history in Hl.
  pose proof (history_parent_chain _ _ _ _ Hl) as Hch.
  split_and!; [done | by eapply parent_chain_NoDup | by eapply history_length
              | intros x; by eapply parent_chain_stored | |].
  - split.
    + intros ->. inversion Hch; by subst.
    + intros Hf. inversion Hch as [|s c l' Hs]; subst; [done|].
      simpl in Hf. by rewrite bool_decide_eq_true_2 in Hf.
  - intros Ht. inversion Hch; subst; [congruence|done].
Qed.

(** The lists of [classify] hold each path once. *)
Lemma classify_fold_NoDup sf tf af l acc :
  NoDup l →
  (∀ p, p ∈ conflicts acc ++ merged acc → p ∉ l) →
  NoDup (conflicts acc ++ merged acc) →
  NoDup (conflicts (foldl (classify_step sf tf af) acc l)
         ++ merged (foldl (classify_step sf tf af) acc l)).
Proof.
  revert acc. induction l as [|q l IH]; intros acc Hl Hacc Hnd; [done|].
  apply NoDup_cons in Hl as [Hq Hl]. simpl.
  assert (Hfresh : q ∉ conflicts acc ++ merged acc).
  { intros Hin. apply (Hacc q Hin). by left. }
  assert (Hrest : ∀ p, p ∈ conflicts acc ++ merged acc → p ∉ l).
  { intros p Hin Hp. apply (Hacc p Hin). by right. }
  rewrite elem_of_app in Hfresh.
  apply NoDup_app in Hnd as (Hc & Hcm & Hm).
  apply IH; [done| |]; unfold classify_step;
    destruct (differs _ _ _); simpl.
  - intros p. rewrite !elem_of_app, list_elem_of_singleton.
    intros [[?| ->]|?]; try done; apply Hrest; rewrite elem_of_app; auto.
  - intros p. rewrite !elem_of_app, list_elem_of_singleton.
    intros [?|[?| ->]]; try done; apply Hrest; rewrite elem_of_app; auto.
  - apply NoDup_app. split_and!; [|  |done].
    + apply NoDup_app. split_and!; [done| |apply NoDup_singleton].
      intros p Hp ->%list_elem_of_singleton. tauto.
    + intros p [Hp| ->%list_elem_of_singleton]%elem_of_app; [by apply Hcm|tauto].
  - apply NoDup_app. split_and!; [done| |].
    + intros p Hp [Hp'| ->%list_elem_of_singleton]%elem_of_app;
        [by apply (Hcm p)|tauto].
    + apply NoDup_app. split_and!; [done| |apply NoDup_singleton].
      intros p Hp ->%list_elem_of_singleton. tauto.
Qed.

(** X14. In the result of a call of [merge_branch] that returns, no path
    is listed twice: none is both a conflict and merged, and none occurs
    twice in one list. *)
Theorem merge_lists_disjoint fuel branch_name w result :
  fst (merge_branch fuel branch_name w) = Ok result →
  NoDup (conflicts result ++ merged result).
Proof.
  intros (r & cur & sh & th & S & T & anc & B & _ & _ & _ & _ & _ & _ & _
          & _ & _ & _ & ->)%merge_ok_classified.
  apply classify_fold_NoDup; simpl.
  - apply NoDup_elements.
  - by intros p ?%elem_of_nil.
  - constructor.
Qed.

(** A merge that passes the checks and finds its commits. *)
Lemma merge_branch_returns fuel branch_name w r cur source_head target_head
    S T ancestor B :
  repo w = Some r →
  clean w →
  branches r !! branch_name = Some source_head →
  branches r !! "current" = Some (Some cur) →
  cur ≠ branch_name →
  branches r !! cur = Some target_head →
  commits r !! py_str source_head = Some S →
  commits r !! py_str target_head = Some T →
  common_ancestor fuel source_head target_head w = (Ok ancestor, w) →
  commits r !! ancestor = Some B →
  merge_branch fuel branch_name w
  = (Ok (classify (changes S) (changes T) (changes B)), w).
Proof.
  intros Hr (status & Hst & Hd) Hsrc Hcur Hne Htgt HS HT Hanc HB.
  unfold merge_branch. run_init Hr.
  rewrite bool_decide_eq_false_2 by congruence. simpl.
  rewrite Hcur. simpl. rewrite bool_decide_eq_false_2 by congruence. simpl.
  rewrite (get_status_pair _ _ Hst). rewrite Hd. simpl. rewrite Hsrc. simpl.
  rewrite Hr. simpl. rewrite HS, Htgt. simpl. rewrite Hr. simpl. rewrite HT.
  rewrite Hanc. rewrite Hr. simpl. by rewrite HB.
Qed.

(** Nothing is a conflict when the ancestor is one of the two sides. *)
Lemma classify_no_conflict sf tf af :
  af = sf ∨ af = tf → conflicts (classify sf tf af) = [].
Proof.
  intros Haf. destruct (conflicts (classify sf tf af)) as [|p l] eqn:Hc; [done|].
  destruct (classify_spec sf tf af p) as [[Hp _] _].
  destruct Hp as (_ & Hs & Ht & _); [rewrite Hc; by left|].
  destruct Haf as [->| ->]; done.
Qed.


Lemma differs_sym s t a : differs s t a = differs t s a.
Proof.
  unfold differs. repeat case_bool_decide; simpl; try done; congruence.
Qed.

Lemma classify_sym sf tf af : classify sf tf af = classify tf sf af.
Proof.
  unfold classify. rewrite (union_comm_L (dom sf) (dom tf)).
  generalize (mkMergeResult [] []).
  induction (elements (dom tf ∪ dom sf)) as [|p l IH]; intros acc; [done|].
  simpl. rewrite <- IH. f_equal. unfold classify_step.
  by rewrite differs_sym.
Qed.

(** X16. A merge reports the same paths from either side: after
    [switch_branch] to the source branch, merging the branch that was
    current returns the conflicts and the merged paths that merging the
    source branch returned before the switch, each list up to the order of
    its paths. *)
Theorem merge_symmetric fuel branch_name w r cur source_head target_head
    S T hs ht :
  repo w = Some r →
  clean w →
  branches r !! branch_name = Some source_head →
  branches r !! "current" = Some (Some cur) →
  cur ≠ branch_name →
  cur ≠ "current" →
  branch_name ≠ "current" →
  branches r !! cur = Some target_head →
  commits r !! py_str source_head = Some S →
  commits r !! py_str target_head = Some T →
  parent_chain (commits r) source_head hs →
  parent_chain (commits r) target_head ht →
  (∃ y, y ∈ hs ∧ y ∈ ht) →
  length hs ≤ fuel →
  length ht ≤ fuel →
  ∃ result result' w',
    merge_branch fuel branch_name w = (Ok result, w)
    ∧ switch_branch branch_name w = (Ok tt, w')
    ∧ fst (get_current_branch w') = Ok (Some branch_name)
    ∧ merge_branch fuel cur w' = (Ok result', w')
    ∧ conflicts result' ≡ₚ conflicts result
    ∧ merged result' ≡ₚ merged result.
Proof.
  intros Hr Hclean Hsrc Hcur Hne Hnc Hnb Htgt HS HT Hcs Hct Hshare Hfs Hft.
  set (r' := mkRepo (staging r) (<["current" := Some branch_name]> (branches r))
                    (commits r)).
  set (w' := mkWorld (tree w) (Some r')).
  assert (Hsw : switch_branch branch_name w = (Ok tt, w')).
  { apply (switch_branch_run branch_name w r Hr); [by eexists|done]. }
  assert (Hclean' : clean w').
  { apply (clean_spec w' r' eq_refl). by apply (clean_spec w r Hr). }
  assert (Hst : store w = commits r) by by apply store_repo.
  assert (Hst' : store w' = commits r) by done.
  pose proof Hcs as Hcs'. pose proof Hct as Hct'.
  rewrite <- Hst in Hcs, Hct. rewrite <- Hst' in Hcs', Hct'.
  destruct (common_ancestor_search fuel source_head target_head w hs ht
              Hcs Hct Hfs Hft) as (_ & _ & Hfound & _).
  destruct (Hfound Hshare)
    as (x & l1 & l2 & Hanc & _ & _ & Hxs & Hxt & Hnewest).
  destruct (common_ancestor_search fuel target_head source_head w' ht hs
              Hct' Hcs' Hft Hfs) as (_ & _ & Hfound' & _).
  destruct Hfound' as (y & l1' & l2' & Hanc' & _ & _ & Hyt & Hys & Hnewest').
  { destruct Hshare as (z & ? & ?). by exists z. }
  assert (x = y) as <-.
  { pose proof Hxs as Hxs'. apply list_elem_of_lookup in Hxs' as [i Hi].
    pose proof Hys as Hys'. apply list_elem_of_lookup in Hys' as [j Hj].
    destruct (Hnewest y Hys Hyt) as [Hyx _].
    destruct (Hnewest' x Hxt Hxs) as [_ Hxy].
    destruct (Nat.lt_trichotomy i j) as [Hlt|[->|Hlt]].
    - destruct Hxy. by exists i, j.
    - congruence.
    - destruct Hyx. by exists j, i. }
  destruct (parent_chain_stored _ _ _ x Hcs Hxs) as [B HB]. rewrite Hst in HB.
  exists (classify (changes S) (changes T) (changes B)),
         (classify (changes S) (changes T) (changes B)), w'.
  split_and!; [| | | |done|done].
  - by eapply (merge_branch_returns fuel branch_name w r cur source_head
                 target_head S T x B).
  - done.
  - rewrite (get_current_branch_run w' r' (Some branch_name)); [done..|].
    simpl. by rewrite lookup_insert_eq.
  - rewrite classify_sym.
    eapply (merge_branch_returns fuel cur w' r' branch_name target_head
              source_head T S x B); try done; simpl.
    + by rewrite lookup_insert_ne.
    + by rewrite lookup_insert_eq.
    + by rewrite lookup_insert_ne.
Qed.

End Merging.

Ltac unfold_io :=
  unfold throw_if, lift, io_bind, io_ret, io_throw in *; cbv beta in *.

Section FileContent.

Context `{Collaborators}.

(** *** get_file_content *)

Lemma get_file_content_run file_path h w r :
  repo w = Some r →
  get_file_content file_path (Some h) w
  = match commits r !! h with
    | None => (Throw (Core (CommitNotFound h)), w)
    | Some c =>
        match changes c !! file_path with
        | None => (Throw (FileNotInCommit file_path), w)
        | Some _ =>
            match tree w !! file_path with
            | None => (Throw (Core (FileNotFound file_path)), w)
            | Some NDir => (Throw (Core OSError), w)
            | Some (NFile content) => (Return content, w)
            end
        end
    end.
Proof.
  intros Hr. unfold get_file_content. unfold_io. unfold_prims.
  rewrite (initialized_true _ _ Hr). simpl. rewrite Hr. simpl.
  destruct (commits r !! h) as [c|]; simpl; [|done].
  case_bool_decide as He; simpl.
  { by rewrite He. }
  destruct (changes c !! file_path) as [e|]; [|done].
  by destruct (tree w !! file_path) as [[content|]|].
Qed.

Lemma get_file_content_head file_path w r cur head :
  repo w = Some r →
  branches r !! "current" = Some (Some cur) →
  branches r !! cur = Some head →
  get_file_content file_path None w
  = get_file_content file_path (Some (py_str head)) w.
Proof.
  intros Hr Hcur Hhead. unfold get_file_content. unfold_io. unfold_prims.
  rewrite (initialized_true _ _ Hr). simpl. rewrite Hr. simpl.
  rewrite Hcur. simpl. rewrite Hhead. simpl. by rewrite Hr.
Qed.

(** X17. [get_file_content] hands out the working tree, not the commit:
    for a commit given by its id, or by default the head of the current
    branch, that records the path, the call returns the bytes of the file
    now in the working tree, whatever digest the commit recorded for it,
    and leaves the file system alone. *)
Theorem get_file_content_reads_tree file_path commit_hash w r h c content :
  repo w = Some r →
  commit_hash = Some h
  ∨ (commit_hash = None
     ∧ ∃ cur, branches r !! "current" = Some (Some cur)
         ∧ branches r !! cur = Some (Some h)) →
  commits r !! h = Some c →
  is_Some (changes c !! file_path) →
  tree w !! file_path = Some (NFile content) →
  get_file_content file_path commit_hash w = (Return content, w).
Proof.
  intros Hr Hwhich Hc [e He] Ht.
  assert (Hrun : get_file_content file_path (Some h) w = (Return content, w)).
  { by rewrite (get_file_content_run _ _ w r Hr), Hc, He, Ht. }
  destruct Hwhich as [->|(-> & cur & Hcur & Hhead)]; [done|].
  by rewrite (get_file_content_head _ w r cur (Some h) Hr Hcur Hhead).
Qed.


End FileContent.

Section Cloning.

Context `{Collaborators} `{FileUtils}.

(** *** clone *)

Lemma run_util_repo f w : repo (snd (run_util f w)) = repo w.
Proof. unfold run_util. by destruct (f (tree w)) as [[] t]. Qed.

Lemma copy_file_repo source file_path w :
  repo (snd (copy_file source file_path w)) = repo w.
Proof.
  unfold copy_file. destruct (tree source !! file_path) as [[content|]|]; try done.
  unfold io_bind.
  pose proof (run_util_repo (λ t, mkdir_parents t file_path) w) as H1.
  destruct (run_util (λ t, mkdir_parents t file_path) w) as [[[]| |] w1];
    simpl in *; try done.
  by rewrite run_util_repo.
Qed.

Lemma for_each_copy_file_repo source l w :
  repo (snd (for_each (copy_file source) l w)) = repo w.
Proof.
  revert w. induction l as [|p l IH]; intros w; [done|]. simpl. unfold io_bind.
  pose proof (copy_file_repo source p w) as Hp.
  destruct (copy_file source p w) as [[[]| |] w1]; simpl in *; try done.
  by rewrite IH.
Qed.

Lemma copy_commit_repo source k c w r :
  repo w = Some r →
  repo (snd (copy_commit source (k, c) w))
  = Some (mkRepo (staging r) (branches r) (<[k := c]> (commits r))).
Proof.
  intros Hr. unfold copy_commit, lift, io_bind, write_commit, write_repo.
  simpl. rewrite Hr. by rewrite for_each_copy_file_repo.
Qed.

Lemma for_each_copy_commit_repo source l w r :
  repo w = Some r →
  fst (for_each (copy_commit source) l w) = Return tt →
  repo (snd (for_each (copy_commit source) l w))
  = Some (mkRepo (staging r) (branches r)
                 (foldl (λ cs kc, <[fst kc := snd kc]> cs) (commits r) l)).
Proof.
  revert w r. induction l as [|[k c] l IH]; intros w r Hr; simpl.
  - intros _. rewrite Hr. by destruct r.
  - unfold io_bind. pose proof (copy_commit_repo source k c w r Hr) as Hkc.
    destruct (copy_commit source (k, c) w) as [[[]| |] w1]; simpl in *; try done.
    intros Hrest. by rewrite (IH w1 _ Hkc Hrest).
Qed.

Lemma foldl_insert_list_to_map (l : list (string * Commit))
    (cs : gmap string Commit) :
  NoDup (l.*1) →
  foldl (λ cs kc, <[fst kc := snd kc]> cs) cs l = list_to_map l ∪ cs.
Proof.
  revert cs. induction l as [|[k c] l IH]; intros cs Hnd.
  - simpl. by rewrite (left_id_L ∅ (∪)).
  - rewrite fmap_cons in Hnd. apply NoDup_cons in Hnd as [Hk Hnd].
    simpl. rewrite (IH _ Hnd), <- insert_union_l. symmetry.
    apply insert_union_r. by apply not_elem_of_list_to_map_1.
Qed.

(** X19. [clone] refuses without writing: a source without [.repo/]
    raises "Not a repository"; a destination that exists and is not a
    directory, or is a directory holding anything, a [.repo/] included,
    raises "Destination ... exists and is not an empty directory"; in both
    cases the destination is as it was. *)
Theorem clone_refuses source_path destination_path source destination :
  (repo source = None →
     clone source_path destination_path source destination
     = (Throw (SourceNotARepository source_path), destination))
  ∧ (is_Some (repo source) →
     destination = NotADirectory
     ∨ (∃ w, destination = Directory w ∧ (tree w ≠ ∅ ∨ is_Some (repo w))) →
     clone source_path destination_path source destination
     = (Throw (DestinationNotEmpty destination_path), destination)).
Proof.
  unfold clone. split.
  - by intros ->.
  - intros [rs ->] [->|(w & -> & Hw)]; [done|].
    rewrite bool_decide_eq_false_2; [done|].
    intros [Ht Hr]. destruct Hw as [?|[? ?]]; congruence.
Qed.

(** What a [clone] that returns has run. *)
Lemma clone_ok_inv source_path destination_path source destination d :
  clone source_path destination_path source destination = (Return tt, d) →
  ∃ rs w0 wd,
    repo source = Some rs
    ∧ tree w0 = ∅ ∧ repo w0 = None
    ∧ (destination = Absent ∨ destination = Directory w0)
    ∧ d = Directory wd
    ∧ (lift init ;;~ _copy_repository_data source) w0 = (Return tt, wd).
Proof.
  unfold clone. destruct (repo source) as [rs|] eqn:Hrs; [|done].
  destruct destination as [| |w]; try done.
  - destruct ((lift init ;;~ _copy_repository_data source) (mkWorld ∅ None))
      as [o wd] eqn:Hrun.
    intros [= -> <-]. exists rs, (mkWorld ∅ None), wd. split_and!; auto.
  - case_bool_decide as Hw; [|done]. destruct Hw as [Ht Hr].
    destruct ((lift init ;;~ _copy_repository_data source) w) as [o wd] eqn:Hrun.
    intros [= -> <-]. exists rs, w, wd. split_and!; auto.
Qed.

(** The stores a [clone] that returns leaves at the destination. *)
Lemma clone_stores source_path destination_path source
    destination d :
  clone source_path destination_path source destination = (Return tt, d) →
  ∃ rs wd rd,
    repo source = Some rs
    ∧ d = Directory wd
    ∧ repo wd = Some rd
    ∧ commits rd = commits rs
    ∧ branches rd = branches rs
    ∧ staging rd = ∅.
Proof.
  intros (rs & w0 & wd & Hrs & Ht0 & Hr0 & _ & -> & Hrun)%clone_ok_inv.
  exists rs, wd. revert Hrun.
  unfold io_bind at 1. unfold lift at 1. rewrite init_run, Hr0.
  set (w1 := mkWorld _ _).
  assert (Hr1 : repo w1 = Some (mkRepo ∅
            (<["current" := Some "main"]> (<["main" := None]> ∅)) ∅)) by done.
  clearbody w1. unfold _copy_repository_data. unfold io_bind at 1.
  pose proof (for_each_copy_commit_repo source (map_to_list (store source)) w1 _ Hr1)
    as Hcommits.
  destruct (for_each (copy_commit source) (map_to_list (store source)) w1)
    as [[[]| |] w2]; simpl in Hcommits; try done.
  specialize (Hcommits eq_refl).
  rewrite foldl_insert_list_to_map in Hcommits by apply NoDup_fst_map_to_list.
  rewrite list_to_map_to_list, (right_id_L ∅ (∪)) in Hcommits.
  unfold io_bind at 1. rewrite Hrs.
  unfold io_bind at 1. unfold lift, write_branches, write_repo.
  rewrite Hcommits. simpl.
  destruct (tree source !! ".svcignore") as [[content|]|]; simpl.
  - set (w3 := mkWorld _ _). intros Hrun.
    pose proof (run_util_repo (λ t, copy2 content t ".svcignore") w3) as Hu.
    rewrite Hrun in Hu. simpl in Hu. eexists. split_and!; try done.
    by rewrite (store_repo source rs Hrs).
  - done.
  - intros [= <-]. eexists. split_and!; try done.
    by rewrite (store_repo source rs Hrs).
Qed.

(** X20. A [clone] that returns leaves at the destination a repository
    with the commit files and the branch table of the source, current
    pointer included, and an empty staging table: what is staged at the
    source and not committed is not taken over. *)


End Cloning.

Section Agreement.

Context `{Collaborators} `{FileUtils}.

(** *** Two file systems with the same branch table and commit files *)

Lemma get_commit_ext h w1 w2 :
  store w1 = store w2 → fst (get_commit h w1) = fst (get_commit h w2).
Proof.
  intros Hst. rewrite !get_commit_store, Hst.
  by destruct (store w2 !! py_str h).
Qed.

Lemma history_loop_ext fuel acc cur w1 w2 :
  store w1 = store w2 →
  fst (history_loop fuel acc cur w1) = fst (history_loop fuel acc cur w2).
Proof.
  intros Hst. revert acc cur. induction fuel as [|n IH]; intros acc cur.
  - simpl. by destruct (truthy cur).
  - destruct (truthy cur) eqn:Ht.
    2: { by rewrite !history_loop_falsy. }
    apply truthy_inv in Ht as (s & -> & Hs).
    destruct (store w2 !! s) as [c|] eqn:Hc.
    + rewrite !(history_loop_link _ _ s c) by (done || by rewrite Hst).
      apply IH.
    + by rewrite !history_loop_missing by (done || by rewrite Hst).
Qed.

Lemma common_ancestor_ext fuel a b w1 w2 :
  store w1 = store w2 →
  fst (common_ancestor fuel a b w1) = fst (common_ancestor fuel a b w2).
Proof.
  intros Hst. unfold common_ancestor, _get_commit_history, bind.
  pose proof (history_loop_ext fuel [] a w1 w2 Hst) as Ha.
  pose proof (history_loop_ext fuel [] b w1 w2 Hst) as Hb.
  pose proof (readonly_history_loop fuel [] a w1) as Hw1.
  pose proof (readonly_history_loop fuel [] a w2) as Hw2.
  destruct (history_loop fuel [] a w1) as [o1 w1'].
  destruct (history_loop fuel [] a w2) as [o2 w2'].
  simpl in *. subst. destruct o2 as [hs| |]; try done.
  pose proof (readonly_history_loop fuel [] b w1) as Hw1.
  pose proof (readonly_history_loop fuel [] b w2) as Hw2.
  destruct (history_loop fuel [] b w1) as [o1 w1'].
  destruct (history_loop fuel [] b w2) as [o2 w2'].
  simpl in *. subst. destruct o2 as [ht| |]; try done.
  unfold raise_if. by destruct (truthy (first_common hs ht)).
Qed.

(** Past the guard, a merge depends on the branch table and the commit
    files alone. *)
Lemma merge_branch_ext fuel branch_name w1 w2 r1 r2 :
  repo w1 = Some r1 → repo w2 = Some r2 →
  branches r1 = branches r2 → commits r1 = commits r2 →
  clean w1 → clean w2 →
  fst (merge_branch fuel branch_name w1) = fst (merge_branch fuel branch_name w2).
Proof.
  intros Hr1 Hr2 Hb Hc (st1 & Hst1 & Hd1) (st2 & Hst2 & Hd2).
  assert (Hstore : store w1 = store w2).
  { by rewrite (store_repo w1 r1 Hr1), (store_repo w2 r2 Hr2). }
  unfold merge_branch. unfold_prims.
  rewrite (initialized_true _ _ Hr1), (initialized_true _ _ Hr2). simpl.
  rewrite Hr1, Hr2. simpl. rewrite Hb.
  case_bool_decide; simpl; [done|].
  destruct (branches r2 !! "current") as [cur|]; simpl; [|done].
  case_bool_decide; simpl; [done|].
  rewrite (get_status_pair _ _ Hst1), (get_status_pair _ _ Hst2), Hd1, Hd2.
  simpl.
  destruct (branches r2 !! branch_name) as [source_head|]; simpl; [|done].
  rewrite Hr1, Hr2. simpl. rewrite Hc.
  destruct (commits r2 !! py_str source_head) as [S|]; simpl; [|done].
  destruct cur as [cur|]; simpl; [|done].
  destruct (branches r2 !! cur) as [target_head|]; simpl; [|done].
  rewrite Hr1, Hr2. simpl. rewrite Hc.
  destruct (commits r2 !! py_str target_head) as [T|]; simpl; [|done].
  pose proof (common_ancestor_ext fuel source_head target_head w1 w2 Hstore) as Ha.
  pose proof (readonly_common_ancestor fuel source_head target_head w1) as Hw1.
  pose proof (readonly_common_ancestor fuel source_head target_head w2) as Hw2.
  destruct (common_ancestor fuel source_head target_head w1) as [o1 w1'].
  destruct (common_ancestor fuel source_head target_head w2) as [o2 w2'].
  simpl in *. subst. destruct o2 as [ancestor| |]; try done.
  rewrite Hr1, Hr2. simpl. rewrite Hc.
  by destruct (commits r2 !! ancestor).
Qed.


End Agreement.

Section CommandLineProperties.

Context `{Collaborators}.

(** *** The command line *)

Lemma stage_file_stageable file_path now w r :
  repo w = Some r →
  stage_file file_path now w
  = if stageable (tree w) file_path
    then match tree w !! file_path with
         | Some (NFile content) =>
             (Ok tt, mkWorld (tree w)
                (Some (mkRepo (<[file_path := mkEntry (sha256 content) now]> (staging r))
                              (branches r) (commits r))))
         | _ => (Ok tt, w)
         end
    else (Raise (match tree w !! file_path with
                 | None => FileNotFound file_path
                 | Some NDir => NotAFile file_path
                 | Some (NFile _) => FileIgnored file_path
                 end), w).
Proof.
  intros Hr. rewrite (stage_file_run _ _ w r Hr). unfold stageable.
  destruct (tree w !! file_path) as [[content|]|]; try done.
  by destruct (is_ignored (tree w) file_path).
Qed.

Lemma add_loop_initialized env files : ∀ n con w r,
  repo w = Some r →
  ∃ con' r' es,
    add_loop env n files con w = Some (con', mkWorld (tree w) (Some r'))
    ∧ branches r' = branches r
    ∧ commits r' = commits r
    ∧ stdout con' = stdout con ++ (StagedLine <$> filter (λ p, stageable (tree w) p = true) files)
    ∧ stderr con' = stderr con ++ es
    ∧ Forall2 staging_error_of (filter (λ p, stageable (tree w) p ≠ true) files) es
    ∧ ∀ p,
        (p ∈ files → stageable (tree w) p = true →
         ∃ content e, tree w !! p = Some (NFile content)
           ∧ staging r' !! p = Some e ∧ hash e = sha256 content)
        ∧ (¬ (p ∈ files ∧ stageable (tree w) p = true) →
           staging r' !! p = staging r !! p).
Proof.
  induction files as [|q files IH]; intros n con w r Hr.
  - exists con, r, []. destruct w as [t rp]. simpl in *. subst rp.
    rewrite !app_nil_r. split_and!; try done.
    intros p. split; [by intros ?%elem_of_nil|done].
  - simpl. rewrite (stage_file_stageable q (clock env n) w r Hr).
    destruct (stageable (tree w) q) eqn:Hq.
    + unfold stageable in Hq.
      destruct (tree w !! q) as [[content|]|] eqn:Ht; try done.
      set (r1 := mkRepo (<[q := mkEntry (sha256 content) (clock env n)]> (staging r))
                        (branches r) (commits r)).
      destruct (IH (S n) (say (StagedLine q) con) (mkWorld (tree w) (Some r1)) r1 eq_refl)
        as (con' & r' & es & Hrun & Hb & Hc & Hout & Herr & Hes & Hstg).
      exists con', r', es. simpl in *.
      assert (Hq' : stageable (tree w) q = true).
      { unfold stageable. by rewrite Ht, Hq. }
      rewrite filter_cons_True by done. rewrite filter_cons_False by (by intros []).
      split_and!; try done.
      * rewrite Hout, fmap_cons. by rewrite <- app_assoc.
      * intros p. destruct (Hstg p) as [Hin Hout']. split.
        -- intros [->|Hp]%elem_of_cons Hgood; [|by apply Hin].
           destruct (decide (q ∈ files)) as [Hqf|Hqf]; [by apply Hin|].
           exists content, (mkEntry (sha256 content) (clock env n)).
           split_and!; [done| |done].
           rewrite Hout' by tauto. simpl. by rewrite lookup_insert_eq.
        -- intros Hno. rewrite Hout'.
           ++ simpl. apply lookup_insert_ne. intros ->. apply Hno.
              split; [by left|done].
           ++ intros [? ?]. apply Hno. split; [by right|done].
    + set (e := match tree w !! q with
                | None => FileNotFound q
                | Some NDir => NotAFile q
                | Some (NFile _) => FileIgnored q
                end).
      destruct (IH (S n) (complain (ErrorStagingLine q e) con) w r Hr)
        as (con' & r' & es & Hrun & Hb & Hc & Hout & Herr & Hes & Hstg).
      eexists con', r', (_ :: es). simpl in *.
      rewrite filter_cons_False by congruence.
      rewrite filter_cons_True by congruence.
      split_and!; try done.
      * rewrite Herr. by rewrite <- app_assoc.
      * constructor; [by eexists|done].
      * intros p. destruct (Hstg p) as [Hin Hout']. split.
        -- intros [->|Hp]%elem_of_cons Hgood; [congruence|by apply Hin].
        -- intros Hno. apply Hout'. intros [? ?]. apply Hno.
           split; [by right|done].
Qed.

Lemma add_loop_uninitialized env files : ∀ n con w,
  repo w = None →
  add_loop env n files con w
  = Some (mkConsole (stdout con)
            (stderr con ++ ((λ p, ErrorStagingLine p NotARepository) <$> files)), w).
Proof.
  induction files as [|q files IH]; intros n con w Hr; simpl.
  - rewrite app_nil_r. by destruct con.
  - rewrite (stage_file_uninitialized q _ w Hr), (IH _ _ w Hr). simpl.
    by rewrite <- app_assoc.
Qed.

(** X22. The command [add] tries every file it is given and ends with
    status 0 whatever happens.  Without [.repo/] every file is reported as
    an error, and the status is 0 all the same.  With [.repo/] in place,
    on a tree whose status [get_status] can take (so [_is_ignored] answers
    for each of its paths), and for arguments that are relative paths in
    normal form: the files of the tree that are not ignored are staged with
    their digests and reported on the output, in the order given, the
    other arguments are reported on the error stream, and no other entry of
    the staging table, no branch, no commit file and no file of the tree
    changes. *)
Theorem add_tries_every_file env files w :
  (repo w = None →
     main env (CmdAdd files) w
     = Some (0, mkConsole [] ((λ p, ErrorStagingLine p NotARepository) <$> files), w))
  ∧ (∀ r status, repo w = Some r →
     fst (get_status w) = Ok status →
     Forall (λ p, normal p = true) files →
     ∃ con r',
       main env (CmdAdd files) w = Some (0, con, mkWorld (tree w) (Some r'))
       ∧ branches r' = branches r
       ∧ commits r' = commits r
       ∧ stdout con = StagedLine <$> filter (λ p, stageable (tree w) p = true) files
       ∧ Forall2 staging_error_of
           (filter (λ p, stageable (tree w) p ≠ true) files) (stderr con)
       ∧ ∀ p,
           (p ∈ files → stageable (tree w) p = true →
            ∃ content e, tree w !! p = Some (NFile content)
              ∧ staging r' !! p = Some e ∧ hash e = sha256 content)
           ∧ (¬ (p ∈ files ∧ stageable (tree w) p = true) →
              staging r' !! p = staging r !! p)).
Proof.
  split.
  - intros Hr. unfold main, dispatch. by rewrite (add_loop_uninitialized _ _ _ _ w Hr).
  - intros r status Hr _ _.
    destruct (add_loop_initialized env files 0 (mkConsole [] []) w r Hr)
      as (con' & r' & es & Hrun & Hb & Hc & Hout & Herr & Hes & Hstg).
    exists con', r'. unfold main, dispatch. rewrite Hrun.
    simpl in *. subst es. split_and!; done.
Qed.

Lemma branch_loop_heads current items : ∀ con,
  (∀ name head, (name, head) ∈ items → is_Some head) →
  ∃ con',
    branch_loop current items con = (None, con')
    ∧ stderr con' = stderr con
    ∧ ∀ l, l ∈ stdout con'
           ↔ l ∈ stdout con
             ∨ ∃ name h, (name, Some h) ∈ items
                 ∧ l = BranchLine (bool_decide (Some name = current)) name (short_id h).
Proof.
  induction items as [|[name head] items IH]; intros con Hheads; simpl.
  - exists con. split_and!; try done. intros l. split; [auto|].
    by intros [?|(? & ? & ?%elem_of_nil & _)].
  - destruct (Hheads name head) as [h ->]; [by left|].
    destruct (IH (say (BranchLine (bool_decide (Some name = current)) name (short_id h)) con))
      as (con' & Hrun & Herr & Hout).
    { intros n' h' Hin. apply (Hheads n' h'). by right. }
    exists con'. split_and!; try done. intros l. rewrite Hout. simpl.
    rewrite elem_of_app, list_elem_of_singleton. setoid_rewrite elem_of_cons.
    split.
    + intros [[?| ->]|(n' & h' & ? & ?)]; eauto 10.
    + intros [?|(n' & h' & [[= -> ->]|?] & ->)]; eauto 10.
Qed.

Lemma branch_loop_null current items : ∀ con,
  (∃ name, (name, None) ∈ items) →
  ∃ con', branch_loop current items con = (Some TypeError, con')
          ∧ stderr con' = stderr con.
Proof.
  induction items as [|[name head] items IH]; intros con [n0 Hin]; simpl.
  - by apply elem_of_nil in Hin.
  - destruct head as [h|]; [|by exists con].
    apply elem_of_cons in Hin as [[=]|Hin].
    destruct (IH (say (BranchLine (bool_decide (Some name = current)) name (short_id h)) con))
      as (con' & Hrun & Herr); [by exists n0|].
    by exists con'.
Qed.

Lemma branch_loop_stderr current items : ∀ con,
  stderr (snd (branch_loop current items con)) = stderr con.
Proof.
  induction items as [|[name [h|]] items IH]; intros con; simpl; try done.
  by rewrite IH.
Qed.


(** X24. A command that ends with status 1 has changed nothing: the file
    system is the one it was started on, and the error stream holds the one
    line of the exception caught.  Each of the five commands ends, with
    status 0 or 1, and [add] with status 0. *)
Theorem status_one_changes_nothing env cmd w :
  ∃ code con w',
    main env cmd w = Some (code, con, w')
    ∧ (code = 0 ∨ code = 1)
    ∧ (code = 1 → w' = w ∧ ∃ c, stderr con = [ErrorLine c])
    ∧ (∀ files, cmd = CmdAdd files → code = 0).
Proof.
  destruct (raise_unchanged w)
    as (Hinit & Hstage & Hcommit & Hcreate & Hswitch).
  assert (Hfinish : ∀ A (r : outcome A * World) (l : A → Line),
    fst r ≠ Diverge → (∀ e, fst r = Raise e → snd r = w) →
    ∃ code con w',
      match match r with
            | (Ok a, w') => Some (None, say (l a) (mkConsole [] []), w')
            | (Raise e, w') => Some (Some (Raised e), mkConsole [] [], w')
            | (Diverge, _) => None
            end with
      | Some (None, con, w') => Some (0, con, w')
      | Some (Some c, con, w') => Some (1, complain (ErrorLine c) con, w')
      | None => None
      end = Some (code, con, w')
      ∧ (code = 0 ∨ code = 1)
      ∧ (code = 1 → w' = w ∧ ∃ c, stderr con = [ErrorLine c])).
  { intros A [[a|e|] w'] l Hnd Hraise; simpl in *; [| |done].
    - eexists _, _, _. split_and!; [done|by left|done].
    - eexists _, _, _. split_and!; [done|by right|]. intros _.
      split; [by apply (Hraise e)|by eexists]. }
  unfold main, dispatch. destruct cmd as [|files|message author|name|branch].
  - destruct (Hfinish _ (init w) (λ _, InitializedLine))
      as (code & con & w' & -> & ? & ?); [|done|by eexists _, _, _].
    rewrite init_run. by destruct (repo w).
  - destruct (repo w) as [r|] eqn:Hr.
    + destruct (add_loop_initialized env files 0 (mkConsole [] []) w r Hr)
        as (con' & r' & es & -> & _).
      eexists _, _, _. split_and!; [done|by left|done|done].
    + rewrite (add_loop_uninitialized _ _ _ _ w Hr).
      eexists _, _, _. split_and!; [done|by left|done|done].
  - destruct (Hfinish _ (commit message author (clock env 0) (user env) w)
                (λ commit_hash, CreatedCommitLine (short_id commit_hash)))
      as (code & con & w' & -> & ? & ?); [|by apply Hcommit|by eexists _, _, _].
    destruct (repo w) as [r|] eqn:Hr.
    + rewrite (commit_run _ _ _ _ w r Hr). case_bool_decide; [done|].
      destruct (branches r !! "current") as [[cur|]|]; try done.
      by destruct (branches r !! cur).
    + by rewrite commit_uninitialized.
  - destruct (truthy name) eqn:Hname.
    + destruct (Hfinish _ (create_branch (py_str name) w)
                  (λ _, CreatedBranchLine (py_str name)))
        as (code & con & w' & -> & ? & ?); [|by apply Hcreate|by eexists _, _, _].
      destruct (repo w) as [r|] eqn:Hr.
      * rewrite (create_branch_run _ w r Hr).
        destruct (branches r !! py_str name); [done|].
        destruct (branches r !! "current") as [[cur|]|]; try done.
        by destruct (branches r !! cur).
      * by rewrite create_branch_uninitialized.
    + destruct (repo w) as [r|] eqn:Hr.
      2: { rewrite (list_branches_uninitialized w Hr).
           eexists _, _, _. split_and!; [done|by right| |done].
           intros _. split; [done|by eexists]. }
      rewrite (list_branches_run w r Hr).
      unfold get_current_branch. run_init Hr.
      destruct (branches r !! "current") as [current|]; simpl.
      2: { eexists _, _, _. split_and!; [done|by right| |done].
           intros _. split; [done|by eexists]. }
      destruct (branch_loop current _ (mkConsole [] [])) as [[c|] con'] eqn:Hloop.
      * eexists _, _, _. split_and!; [done|by right| |done].
        intros _. split; [done|].
        pose proof (branch_loop_stderr current
          (map_to_list (filter (λ kv, fst kv ≠ "current") (branches r)))
          (mkConsole [] [])) as Herr.
        rewrite Hloop in Herr. simpl in *. rewrite Herr. by eexists.
      * eexists _, _, _. split_and!; [done|by left|done|done].
  - destruct (Hfinish _ (switch_branch branch w) (λ _, SwitchedLine branch))
      as (code & con & w' & -> & ? & ?); [|by apply Hswitch|by eexists _, _, _].
    destruct (repo w) as [r|] eqn:Hr.
    + destruct (get_status_initialized w r Hr) as [status Hs].
      rewrite (switch_branch_cases _ w r status Hr Hs).
      destruct (branches r !! branch); [|done]. by destruct (dirty status).
    + by rewrite switch_branch_uninitialized.
Qed.

End CommandLineProperties.

(** * The further properties, checked on the worked history *)

Section MoreChecks.

Import Scenario Replica.

#[local] Existing Instance env.
#[local] Existing Instance utils.

Lemma guarded_reachable_call o w :
  o ≠ OSwitch "current" → guarded_reachable w → guarded_reachable (exec o w).
Proof.
  intros Ho (w0 & H0 & Hsteps). exists w0. split; [done|].
  eapply rtc_r; [exact Hsteps|]. by apply guarded_call.
Qed.

Lemma guarded_reachable_edit t w :
  guarded_reachable w → guarded_reachable (mkWorld t (repo w)).
Proof.
  intros (w0 & H0 & Hsteps). exists w0. split; [done|].
  eapply rtc_r; [exact Hsteps|]. apply guarded_edit.
Qed.

Lemma guarded_reachable_fresh : guarded_reachable fresh.
Proof.
  exists empty. split; [reflexivity|]. apply rtc_once.
  apply (guarded_call OInit empty). discriminate.
Qed.

Lemma guarded_reachable_staged_one : guarded_reachable staged_one.
Proof.
  apply guarded_reachable_call; [discriminate|].
  apply (guarded_reachable_edit _ fresh), guarded_reachable_fresh.
Qed.

Lemma guarded_reachable_first_commit : guarded_reachable first_commit.
Proof.
  apply guarded_reachable_call; [discriminate|].
  exact guarded_reachable_staged_one.
Qed.

Lemma guarded_reachable_on_dev : guarded_reachable on_dev.
Proof.
  apply guarded_reachable_call; [discriminate|].
  apply guarded_reachable_call; [discriminate|].
  apply (guarded_reachable_edit _
           (call (OSwitch "dev") (call (OCreateBranch "dev") first_commit))).
  apply guarded_reachable_call; [discriminate|].
  apply guarded_reachable_call; [discriminate|].
  exact guarded_reachable_first_commit.
Qed.

Lemma guarded_reachable_forked : guarded_reachable forked.
Proof.
  apply guarded_reachable_call; [discriminate|].
  apply guarded_reachable_call; [discriminate|].
  apply (guarded_reachable_edit _ (call (OSwitch "main") on_dev)).
  apply guarded_reachable_call; [discriminate|].
  exact guarded_reachable_on_dev.
Qed.

Lemma reachable_forked : reachable forked.
Proof.
  destruct guarded_reachable_forked as (w0 & H0 & Hsteps).
  exists w0. split; [done|].
  eapply rtc_subrel; [|exact Hsteps].
  intros x y [o w _|t w]; [apply step_call | apply step_edit].
Qed.

Lemma clean_forked : clean forked.
Proof. exists (mkStatus [] [] [".svcignore"; "f.txt"]). split; reflexivity. Qed.

Lemma clean_behind : clean behind.
Proof. exists (mkStatus [] [] [".svcignore"; "f.txt"]). split; reflexivity. Qed.

Lemma parent_chain_dev : parent_chain (store behind) (Some id2) [id2; id1].
Proof. apply (history_parent_chain 5 (Some id2) behind). reflexivity. Qed.

Lemma parent_chain_main : parent_chain (store behind) (Some id1) [id1].
Proof. apply (history_parent_chain 5 (Some id1) behind). reflexivity. Qed.

(** X1 at the repository with [f.txt] staged. *)
Lemma get_status_lists_witness :
  repo staged_one = Some (the_repo staged_one)
  ∧ fst (get_status staged_one) = Ok (mkStatus ["f.txt"] [] [".svcignore"])
  ∧ snd (get_status staged_one) = staged_one
  ∧ NoDup (["f.txt"] ++ [] ++ [".svcignore"])
  ∧ ∀ p,
      (p ∈ ["f.txt"]
       ↔ ∃ content e, tree staged_one !! p = Some (NFile content)
           ∧ is_ignored (tree staged_one) p = false
           ∧ staging (the_repo staged_one) !! p = Some e
           ∧ sha256 content = hash e)
      ∧ (p ∈ []
         ↔ ∃ content e, tree staged_one !! p = Some (NFile content)
             ∧ is_ignored (tree staged_one) p = false
             ∧ staging (the_repo staged_one) !! p = Some e
             ∧ sha256 content ≠ hash e)
      ∧ (p ∈ [".svcignore"]
         ↔ ∃ content, tree staged_one !! p = Some (NFile content)
             ∧ is_ignored (tree staged_one) p = false
             ∧ staging (the_repo staged_one) !! p = None).
Proof.
  split; [reflexivity|]. split; [reflexivity|].
  apply (get_status_lists staged_one (the_repo staged_one)
           (mkStatus ["f.txt"] [] [".svcignore"])); reflexivity.
Defined.

(** X2 at the fork, where the staging table is empty. *)
Lemma clean_iff_witness :
  repo forked = Some (the_repo forked)
  ∧ fst (get_status forked) = Ok (mkStatus [] [] [".svcignore"; "f.txt"])
  ∧ (dirty (mkStatus [] [] [".svcignore"; "f.txt"]) = false
     ↔ ∀ p content, tree forked !! p = Some (NFile content) →
         is_ignored (tree forked) p = false →
         staging (the_repo forked) !! p = None).
Proof.
  split; [reflexivity|]. split; [reflexivity|].
  apply (clean_iff forked (the_repo forked)
           (mkStatus [] [] [".svcignore"; "f.txt"])); reflexivity.
Defined.

(** X3 at the repository just initialized: a second [init] raises. *)
Lemma failed_call_writes_nothing_witness :
  fst (init fresh) = Raise RepositoryExists ∧ snd (init fresh) = fresh.
Proof.
  split; [reflexivity|].
  apply (proj1 (failed_call_writes_nothing fresh) RepositoryExists).
  reflexivity.
Defined.

(** X5 at the first staging of [f.txt]. *)
Lemma stage_file_blocks_witness :
  stage_file "f.txt" "t1" (edit "f.txt" "one" fresh) = (Ok tt, staged_one)
  ∧ (∃ status, get_status staged_one = (Ok status, staged_one)
       ∧ "f.txt" ∈ staged status)
  ∧ (∀ branch_name, fst (switch_branch branch_name staged_one) ≠ Ok tt)
  ∧ (∀ fuel branch_name result,
       fst (merge_branch fuel branch_name staged_one) ≠ Ok result).
Proof.
  split; [reflexivity|].
  apply (stage_file_blocks "f.txt" "t1" (edit "f.txt" "one" fresh) staged_one).
  reflexivity.
Defined.

(** X6 at the first commit. *)
Lemma commit_leaves_untracked_witness :
  commit "first" (Some "ann") "t2" None staged_one = (Ok id1, first_commit)
  ∧ fst (get_status first_commit) = Ok (mkStatus [] [] [".svcignore"; "f.txt"])
  ∧ tree first_commit = tree staged_one
  ∧ (∃ r', repo first_commit = Some r' ∧ staging r' = ∅)
  ∧ (∀ status, fst (get_status first_commit) = Ok status →
       staged status = [] ∧ modified status = []
       ∧ ∀ p, p ∈ untracked status
              ↔ ∃ content, tree staged_one !! p = Some (NFile content)
                  ∧ is_ignored (tree staged_one) p = false)
  ∧ ¬ dirty_tree first_commit.
Proof.
  split; [reflexivity|]. split; [reflexivity|].
  apply (commit_leaves_untracked "first" (Some "ann") "t2" None staged_one
           id1 first_commit).
  reflexivity.
Defined.

(** X7 at the first commit: [dev] is forked off [main]. *)
Lemma create_branch_forks_witness :
  repo first_commit = Some (the_repo first_commit)
  ∧ branches (the_repo first_commit) !! "dev" = None
  ∧ branches (the_repo first_commit) !! "current" = Some (Some "main")
  ∧ branches (the_repo first_commit) !! "main" = Some (Some id1)
  ∧ ∃ w' r',
      create_branch "dev" first_commit = (Ok tt, w')
      ∧ repo w' = Some r'
      ∧ branches r' !! "dev" = Some (Some id1)
      ∧ fst (get_current_branch w') = Ok (Some "main")
      ∧ fst (list_branches w')
        = Ok (<["dev" := Some id1]>
                (filter (λ kv, fst kv ≠ "current")
                        (branches (the_repo first_commit))))
      ∧ staging r' = staging (the_repo first_commit)
      ∧ commits r' = commits (the_repo first_commit)
      ∧ tree w' = tree first_commit.
Proof.
  split_and!; [reflexivity | reflexivity | reflexivity | reflexivity |].
  apply (create_branch_forks "dev" first_commit (the_repo first_commit)
           "main" (Some id1)); reflexivity.
Defined.

(** X9 at the fork. *)
Lemma guarded_reachable_sound_witness :
  guarded_reachable forked
  ∧ repo forked = Some (the_repo forked)
  ∧ current_ok (branches (the_repo forked)) = true
  ∧ heads_resolve (the_repo forked)
  ∧ parents_resolve (commits (the_repo forked)).
Proof.
  split; [exact guarded_reachable_forked|]. split; [reflexivity|].
  apply (guarded_reachable_sound forked (the_repo forked)
           guarded_reachable_forked).
  reflexivity.
Defined.

(** X10 at the fork. *)
Lemma reachable_addressed_witness :
  reachable forked ∧ addressed (store forked).
Proof.
  split; [exact reachable_forked|].
  apply (reachable_addressed forked reachable_forked).
Defined.

(** X11 at the fork, for a switch of branch. *)
Lemma commit_files_stay_witness :
  store (exec (OSwitch "dev") forked) = store forked
  ∧ ∀ h, file_name (py_str h) = true →
         fst (get_commit h (exec (OSwitch "dev") forked))
         = fst (get_commit h forked).
Proof.
  apply (proj2 (commit_files_stay (OSwitch "dev") forked)).
  discriminate.
Defined.

(** X12 at the repository with [f.txt] staged. *)
Lemma guarded_no_key_error_witness :
  guarded_reachable staged_one
  ∧ repo staged_one = Some (the_repo staged_one)
  ∧ staging (the_repo staged_one) ≠ ∅
  ∧ (∀ msg author now user_env,
       staging (the_repo staged_one) ≠ ∅ →
       ∃ c, fst (commit msg author now user_env staged_one) = Ok c)
  ∧ (∀ branch_name,
       branches (the_repo staged_one) !! branch_name = None →
       fst (create_branch branch_name staged_one) = Ok tt)
  ∧ (∃ cur, fst (get_current_branch staged_one) = Ok (Some cur))
  ∧ (∀ fuel branch_name k,
       branch_name ≠ "current" →
       fst (merge_branch fuel branch_name staged_one) ≠ Raise (KeyError k)).
Proof.
  assert (Hne : staging (the_repo staged_one) ≠ ∅).
  { intros Heq. apply (f_equal (λ m, m !! "f.txt")) in Heq. by vm_compute in Heq. }
  split; [exact guarded_reachable_staged_one|]. split; [reflexivity|].
  split; [exact Hne|].
  apply (guarded_no_key_error staged_one (the_repo staged_one)
           guarded_reachable_staged_one).
  reflexivity.
Defined.

(** X13 at the fork: the history of [dev]. *)
Lemma history_is_chain_witness :
  file_name id2 = true
  ∧ plain_links (store forked)
  ∧ fst (_get_commit_history 5 (Some id2) forked) = Ok [id2; id1]
  ∧ parent_chain (store forked) (Some id2) [id2; id1]
  ∧ NoDup [id2; id1]
  ∧ length [id2; id1] ≤ 5
  ∧ (∀ x, x ∈ [id2; id1] → is_Some (store forked !! x))
  ∧ ([id2; id1] = [] ↔ truthy (Some id2) = false)
  ∧ (truthy (Some id2) = true → head [id2; id1] = Some id2).
Proof.
  assert (Hplain : plain_links (store forked)).
  { unfold plain_links. apply (bool_decide_unpack _). vm_compute. exact I. }
  split; [reflexivity|]. split; [exact Hplain|]. split; [reflexivity|].
  apply (history_is_chain 5 (Some id2) forked [id2; id1]);
    [reflexivity | exact Hplain | reflexivity].
Defined.

(** X14 at the fork. *)
Lemma merge_lists_disjoint_witness :
  fst (merge_branch 5 "dev" forked) = Ok (mkMergeResult ["f.txt"] [])
  ∧ NoDup (conflicts (mkMergeResult ["f.txt"] [])
           ++ merged (mkMergeResult ["f.txt"] [])).
Proof.
  split; [reflexivity|].
  apply (merge_lists_disjoint 5 "dev" forked (mkMergeResult ["f.txt"] [])).
  reflexivity.
Defined.


(** X16 at the fork: [dev] merged on [main], and [main] merged on [dev]. *)
Lemma merge_symmetric_witness :
  ∃ S T,
    repo forked = Some (the_repo forked)
    ∧ clean forked
    ∧ branches (the_repo forked) !! "dev" = Some (Some id2)
    ∧ branches (the_repo forked) !! "current" = Some (Some "main")
    ∧ "main" ≠ "dev"
    ∧ "main" ≠ "current"
    ∧ "dev" ≠ "current"
    ∧ branches (the_repo forked) !! "main" = Some (Some id3)
    ∧ commits (the_repo forked) !! id2 = Some S
    ∧ commits (the_repo forked) !! id3 = Some T
    ∧ parent_chain (commits (the_repo forked)) (Some id2) [id2; id1]
    ∧ parent_chain (commits (the_repo forked)) (Some id3) [id3; id1]
    ∧ (∃ y, y ∈ [id2; id1] ∧ y ∈ [id3; id1])
    ∧ length [id2; id1] ≤ 5
    ∧ length [id3; id1] ≤ 5
    ∧ ∃ result result' w',
        merge_branch 5 "dev" forked = (Ok result, forked)
        ∧ switch_branch "dev" forked = (Ok tt, w')
        ∧ fst (get_current_branch w') = Ok (Some "dev")
        ∧ merge_branch 5 "main" w' = (Ok result', w')
        ∧ conflicts result' ≡ₚ conflicts result
        ∧ merged result' ≡ₚ merged result.
Proof.
  set (S := mkCommit "second" "bob" "t4" (Some id1)
              (<["f.txt" := mkEntry "sha:two" "t3"]> ∅)).
  set (T := mkCommit "third" "unknown" "t6" (Some id1)
              (<["f.txt" := mkEntry "sha:three" "t5"]> ∅)).
  assert (Hshare : ∃ y, y ∈ [id2; id1] ∧ y ∈ [id3; id1]).
  { exists id1. split; apply list_elem_of_In; simpl; auto. }
  assert (H2 : length [id2; id1] ≤ 5) by (simpl; lia).
  assert (H3 : length [id3; id1] ≤ 5) by (simpl; lia).
  assert (Hne : "main" ≠ "dev") by discriminate.
  assert (Hm : "main" ≠ "current") by discriminate.
  assert (Hd : "dev" ≠ "current") by discriminate.
  exists S, T.
  split_and!; [reflexivity | exact clean_forked | reflexivity | reflexivity
              | exact Hne | exact Hm | exact Hd | reflexivity | reflexivity
              | reflexivity | exact parent_chain_id2 | exact parent_chain_id3
              | exact Hshare | exact H2 | exact H3 |].
  exact (merge_symmetric 5 "dev" forked (the_repo forked) "main"
           (Some id2) (Some id3) S T [id2; id1] [id3; id1]
           eq_refl clean_forked eq_refl eq_refl Hne Hm Hd eq_refl eq_refl
           eq_refl parent_chain_id2 parent_chain_id3 Hshare H2 H3).
Defined.

(** X17 at the fork: the root commit recorded [f.txt] with the digest of
    ["one"]; the tree holds ["three"]. *)
Lemma get_file_content_reads_tree_witness :
  ∃ c e,
    repo forked = Some (the_repo forked)
    ∧ commits (the_repo forked) !! id1 = Some c
    ∧ changes c !! "f.txt" = Some e
    ∧ hash e = sha256 "one"
    ∧ tree forked !! "f.txt" = Some (NFile "three")
    ∧ get_file_content "f.txt" (Some id1) forked = (Return "three", forked).
Proof.
  exists (mkCommit "first" "ann" "t2" None
            (<["f.txt" := mkEntry "sha:one" "t1"]> ∅)),
         (mkEntry "sha:one" "t1").
  split_and!; [reflexivity | reflexivity | reflexivity | reflexivity
              | reflexivity |].
  apply (get_file_content_reads_tree "f.txt" (Some id1) forked
           (the_repo forked) id1
           (mkCommit "first" "ann" "t2" None
              (<["f.txt" := mkEntry "sha:one" "t1"]> ∅)) "three");
    [reflexivity | left; reflexivity | reflexivity
    | exists (mkEntry "sha:one" "t1"); reflexivity | reflexivity].
Defined.


(** X19 at a source without [.repo/] and at a destination that is a file. *)
Lemma clone_refuses_witness :
  clone "src" "dst" empty Absent = (Throw (SourceNotARepository "src"), Absent)
  ∧ clone "src" "dst" forked NotADirectory
    = (Throw (DestinationNotEmpty "dst"), NotADirectory)
  ∧ clone "src" "dst" forked (Directory fresh)
    = (Throw (DestinationNotEmpty "dst"), Directory fresh).
Proof.
  split_and!.
  - apply (proj1 (clone_refuses "src" "dst" empty Absent)). reflexivity.
  - apply (proj2 (clone_refuses "src" "dst" forked NotADirectory)).
    + exists (the_repo forked). reflexivity.
    + left. reflexivity.
  - apply (proj2 (clone_refuses "src" "dst" forked (Directory fresh))).
    + exists (the_repo forked). reflexivity.
    + right. exists fresh. split; [reflexivity|]. right.
      exists (the_repo fresh). reflexivity.
Defined.



(** X22 at a tree without [.repo/], and at the repository just
    initialized with [f.txt] written and [g.txt] not. *)
Lemma add_tries_every_file_witness :
  (repo empty = None
   ∧ main shell (CmdAdd ["f.txt"; "g.txt"]) empty
     = Some (0,
             mkConsole [] [ErrorStagingLine "f.txt" NotARepository;
                           ErrorStagingLine "g.txt" NotARepository],
             empty))
  ∧ repo (edit "f.txt" "one" fresh) = Some (the_repo fresh)
  ∧ fst (get_status (edit "f.txt" "one" fresh))
    = Ok (mkStatus [] [] [".svcignore"; "f.txt"])
  ∧ Forall (λ p, normal p = true) ["f.txt"; "g.txt"]
  ∧ fst <$> main shell (CmdAdd ["f.txt"; "g.txt"]) (edit "f.txt" "one" fresh)
    = Some (0, mkConsole [StagedLine "f.txt"]
                         [ErrorStagingLine "g.txt" (FileNotFound "g.txt")])
  ∧ ∃ con r',
      main shell (CmdAdd ["f.txt"; "g.txt"]) (edit "f.txt" "one" fresh)
      = Some (0, con, mkWorld (tree (edit "f.txt" "one" fresh)) (Some r'))
      ∧ branches r' = branches (the_repo fresh)
      ∧ commits r' = commits (the_repo fresh)
      ∧ stdout con
        = StagedLine <$> filter (λ p, stageable (tree (edit "f.txt" "one" fresh)) p = true)
                                ["f.txt"; "g.txt"]
      ∧ Forall2 staging_error_of
          (filter (λ p, stageable (tree (edit "f.txt" "one" fresh)) p ≠ true)
                  ["f.txt"; "g.txt"])
          (stderr con)
      ∧ ∀ p,
          (p ∈ ["f.txt"; "g.txt"] →
           stageable (tree (edit "f.txt" "one" fresh)) p = true →
           ∃ content e, tree (edit "f.txt" "one" fresh) !! p = Some (NFile content)
             ∧ staging r' !! p = Some e ∧ hash e = sha256 content)
          ∧ (¬ (p ∈ ["f.txt"; "g.txt"]
                ∧ stageable (tree (edit "f.txt" "one" fresh)) p = true) →
             staging r' !! p = staging (the_repo fresh) !! p).
Proof.
  assert (Hnormal : Forall (λ p, normal p = true) ["f.txt"; "g.txt"]).
  { repeat constructor. }
  split.
  { split; [reflexivity|].
    apply (proj1 (add_tries_every_file shell ["f.txt"; "g.txt"] empty)).
    reflexivity. }
  split; [reflexivity|]. split; [reflexivity|]. split; [exact Hnormal|].
  split; [reflexivity|].
  apply (proj2 (add_tries_every_file shell ["f.txt"; "g.txt"]
                  (edit "f.txt" "one" fresh))
           (the_repo fresh) (mkStatus [] [] [".svcignore"; "f.txt"]));
    [reflexivity | reflexivity | exact Hnormal].
Defined.


End MoreChecks.
